(** * Vintage transition utilities

    A shallow embedding of [src/utils.py]: age derivation, the vintage
    pivot, empirical transition counting, row normalisation, Laplace
    smoothing, shrinkage toward the pooled matrix and the final
    validation pass.

    Modelling choices.
    - Numeric cells are exact rationals ([Q]).  The integer counts and the
      float64 cells of the pandas frames are both read as rationals, so
      the statements are about the arithmetic the code performs and say
      nothing of binary64 rounding; equality of cells is [Qeq].
    - A frame of numbers is its row labels, its column labels and its
      cells.  Labels on one axis are distinct, as [crosstab] and
      [pivot_table] produce them.
    - The table of loan records has typed columns.  [LoanFrame] is the
      table in which no value is missing; [RecordFrame] is the table in
      which a date, an age, a state or a balance may be missing ([NaT],
      [NaN]), and the vintage pivot is given over both.  The column names
      are the defaults of the functions.
    - The laws of normalisation that depend on the sign of the cells are
      stated for non-negative cells, and integer cells stay within the
      64-bit integers.
    - The functions are given twice: as functions of values, and, in
      [Stateful], statement by statement over a store of objects, where
      copies, in-place assignments and aliasing are explicit. *)

From Stdlib Require Import String Ascii.
From Stdlib Require Import List ZArith QArith Qfield Bool.
From Stdlib Require Import Lia Lqa Permutation Sorted.
Import ListNotations.

Local Open Scope Q_scope.

(** ** Labels *)

(** Axis labels and group keys: hashable (decidable equality) and
    orderable, as pandas and [sorted] need them. *)
Class Label (A : Type) : Type := mkLabel
  { label_eqb : A -> A -> bool;
    label_leb : A -> A -> bool }.

(** The equality test of a label type decides equality. *)
Class LabelOk (A : Type) `{Label A} : Prop :=
  label_eqb_eq : forall x y : A, label_eqb x y = true <-> x = y.

#[export] Instance string_Label : Label string :=
  {| label_eqb := String.eqb;
     label_leb := String.leb |}.

#[export] Instance Z_Label : Label Z :=
  {| label_eqb := Z.eqb;
     label_leb := Z.leb |}.

(** Tuples compare lexicographically. *)
#[export] Instance pair_Label {A B} `{Label A} `{Label B} : Label (A * B) :=
  {| label_eqb := fun x y => label_eqb (fst x) (fst y) && label_eqb (snd x) (snd y);
     label_leb := fun x y =>
       if label_eqb (fst x) (fst y) then label_leb (snd x) (snd y)
       else label_leb (fst x) (fst y) |}.

Section Collections.
Context {A : Type} `{Label A}.

(** Membership test of a Python set or list. *)
Definition mem (x : A) (l : list A) : bool := existsb (label_eqb x) l.

(** [s.update(xs)] on a set kept as a list without repetition. *)
Definition set_update (s xs : list A) : list A :=
  fold_left (fun acc x => if mem x acc then acc else acc ++ [x]) xs s.

(** Stable insertion into a list sorted by [label_leb]. *)
Fixpoint insert_sorted (x : A) (l : list A) : list A :=
  match l with
  | [] => [x]
  | y :: l' => if label_leb x y then x :: l else y :: insert_sorted x l'
  end.

(** [sorted(l)] *)
Definition sorted (l : list A) : list A := fold_right insert_sorted [] l.

(** The sorted distinct values of a column, as [groupby], [crosstab]
    and [pivot_table] build their result axes. *)
Definition unique_sorted (l : list A) : list A := sorted (set_update [] l).

(** Position of a label on an axis. *)
Fixpoint get_loc (x : A) (l : list A) : option nat :=
  match l with
  | [] => None
  | y :: l' => if label_eqb x y then Some O
               else option_map S (get_loc x l')
  end.
End Collections.

(** A dict keyed by age, in insertion order; [d[k] = v] overwrites the
    entry of an existing key and appends a new one otherwise. *)
Definition Dict (V : Type) : Type := list (Z * V).

Fixpoint dict_set {V} (d : Dict V) (k : Z) (v : V) : Dict V :=
  match d with
  | [] => [(k, v)]
  | (k', v') :: d' =>
      if Z.eqb k' k then (k, v) :: d' else (k', v') :: dict_set d' k v
  end.

Fixpoint dict_get {V} (d : Dict V) (k : Z) : option V :=
  match d with
  | [] => None
  | (k', v') :: d' => if Z.eqb k' k then Some v' else dict_get d' k
  end.

(** ** Frames *)

(** A pandas frame of numeric cells: row labels, column labels and the
    cells, one list per row. *)
Record DataFrame (I C : Type) : Type := mkFrame
  { index : list I;
    columns : list C;
    values : list (list Q) }.

Arguments mkFrame {I C} _ _ _.
Arguments index {I C} _.
Arguments columns {I C} _.
Arguments values {I C} _.

(** Cell-wise equality of two frames carrying the same labels. *)
Definition rows_eq (a b : list (list Q)) : Prop := Forall2 (Forall2 Qeq) a b.

Definition frame_eq {I C} (a b : DataFrame I C) : Prop :=
  index a = index b /\ columns a = columns b /\ rows_eq (values a) (values b).

(** [n] rows of [m] cells. *)
Definition shape (n m : nat) (v : list (list Q)) : Prop :=
  length v = n /\ Forall (fun r => length r = m) v.

(** Every cell of the frame is non-negative. *)
Definition nonneg_frame {I C} (df : DataFrame I C) : Prop :=
  Forall (Forall (fun x => 0 <= x)) (values df).

(** Sum of one row, and of all the cells of a frame. *)
Definition row_sum (r : list Q) : Q := fold_right Qplus 0 r.

Definition total {I C} (df : DataFrame I C) : Q :=
  row_sum (map row_sum (values df)).

(** ** Row normalisation *)

(** [df.sum(axis=1)] *)
Definition sum_axis1 {I C} (df : DataFrame I C) : list Q :=
  map row_sum (values df).

(** [df.loc[mask]]: the rows selected by a boolean mask. *)
Fixpoint loc_get {A} (mask : list bool) (rows : list A) : list A :=
  match mask, rows with
  | true :: ms, r :: rs => r :: loc_get ms rs
  | false :: ms, _ :: rs => loc_get ms rs
  | _, _ => []
  end.

(** [df.loc[mask] = rhs]: the selected rows are replaced, in order, by the
    rows of [rhs]; the other rows stay. *)
Fixpoint loc_set (mask : list bool) (rhs rows : list (list Q)) : list (list Q) :=
  match mask, rows with
  | true :: ms, r :: rs =>
      match rhs with
      | x :: xs => x :: loc_set ms xs rs
      | [] => r :: loc_set ms [] rs
      end
  | false :: ms, r :: rs => r :: loc_set ms rhs rs
  | _, _ => rows
  end.

(** [df.loc[mask] = c] for a scalar [c]. *)
Fixpoint loc_fill (mask : list bool) (c : Q) (rows : list (list Q)) : list (list Q) :=
  match mask, rows with
  | true :: ms, r :: rs => map (fun _ => c) r :: loc_fill ms c rs
  | false :: ms, r :: rs => r :: loc_fill ms c rs
  | _, _ => rows
  end.

(** [sub.div(sums, axis=0)]: every row divided by its own entry of [sums]. *)
Fixpoint div_axis0 (rows : list (list Q)) (sums : list Q) : list (list Q) :=
  match rows, sums with
  | r :: rs, s :: ss => map (fun x => x / s) r :: div_axis0 rs ss
  | _, _ => []
  end.

(** [row_normalize], statement by statement.  The sums and quotients are
    the exact ones; on a row of mixed sign, where the float64 sum of the
    code can cancel, the two can differ by more than rounding. *)
Definition row_normalize {I C} (df : DataFrame I C) : DataFrame I C :=
  let df0 := mkFrame (index df) (columns df) (values df) in   (* copy, astype(float) *)
  let row_sums := sum_axis1 df0 in
  let nonzero := map (fun s => negb (Qeq_bool s 0)) row_sums in
  let v1 := loc_set nonzero
              (div_axis0 (loc_get nonzero (values df0)) (loc_get nonzero row_sums))
              (values df0) in
  let v2 := loc_fill (map negb nonzero) 0 v1 in
  mkFrame (index df0) (columns df0) v2.

(** What [row_normalize] does to a single row. *)
Definition normalize_row (r : list Q) : list Q :=
  if Qeq_bool (row_sum r) 0 then map (fun _ => 0) r
  else map (fun x => x / row_sum r) r.

(** ** Laplace smoothing *)

(** [counts + alpha]: the scalar is added to every cell.  The sum is the
    exact one: on integer cells and an integer [alpha] it is the sum of
    the code as long as it stays within the 64-bit integers. *)
Definition add_scalar {I C} (df : DataFrame I C) (a : Q) : DataFrame I C :=
  mkFrame (index df) (columns df) (map (map (fun x => x + a)) (values df)).

Definition laplace_smoothing {I C} (counts : DataFrame I C) (alpha : Q) : DataFrame I C :=
  let counts_s := add_scalar counts alpha in
  let probs := row_normalize counts_s in
  probs.

(** ** Validation *)

(** [df.clip(lower=0)] *)
Definition clip_lower0 {I C} (df : DataFrame I C) : DataFrame I C :=
  mkFrame (index df) (columns df)
    (map (map (fun x => if Qle_bool 0 x then x else 0)) (values df)).

Definition ensure_probability_matrix {I C} (df : DataFrame I C) : DataFrame I C :=
  row_normalize (clip_lower0 df).

(** ** Shrinkage toward the pooled matrix *)

Section Reindex.
Context {I C : Type} `{Label I} `{Label C}.

(** The cell under a pair of labels, [fill] when either label is absent
    from the frame.  (pandas refuses to reindex an axis that repeats a
    label; the frames of this development carry distinct labels.) *)
Definition cell_at (df : DataFrame I C) (fill : Q) (r : I) (c : C) : Q :=
  match get_loc r (index df), get_loc c (columns df) with
  | Some i, Some j => nth j (nth i (values df) []) fill
  | _, _ => fill
  end.

(** [df.reindex(index=new_index, columns=new_columns, fill_value=fill)] *)
Definition reindex (df : DataFrame I C) (new_index : list I)
    (new_columns : list C) (fill : Q) : DataFrame I C :=
  mkFrame new_index new_columns
    (map (fun r => map (fun c => cell_at df fill r c) new_columns) new_index).
End Reindex.

(** [pd.DataFrame(c, index=idx, columns=cols, dtype=float)] *)
Definition const_frame {I C} (c : Q) (idx : list I) (cols : list C) : DataFrame I C :=
  mkFrame idx cols (map (fun _ => map (fun _ => c) cols) idx).

(** Cell-wise combination of two rows, or two lists of rows, position by
    position. *)
Fixpoint zip_with {A B D} (f : A -> B -> D) (a : list A) (b : list B) : list D :=
  match a, b with
  | x :: a', y :: b' => f x y :: zip_with f a' b'
  | _, _ => []
  end.

(** [a + b] for two frames that carry the same labels in the same order,
    which is the only way the source adds frames: both operands have been
    brought to the labels [all_states] on either axis. *)
Definition frame_add {I C} (a b : DataFrame I C) : DataFrame I C :=
  mkFrame (index a) (columns a) (zip_with (zip_with Qplus) (values a) (values b)).

(** [k * df] *)
Definition frame_scale {I C} (k : Q) (df : DataFrame I C) : DataFrame I C :=
  mkFrame (index df) (columns df) (map (map (fun x => k * x)) (values df)).

(** A square matrix over state labels. *)
Definition Matrix : Type := DataFrame string string.

(** The first loop of [shrink_toward_pool] and the [sorted] that follows. *)
Definition all_states_of (age_tables : Dict Matrix) : list string :=
  sorted
    (fold_left
       (fun s kv => set_update (set_update s (index (snd kv))) (columns (snd kv)))
       age_tables []).

(** The second loop: the pooled counts. *)
Definition pooled_of (age_tables : Dict Matrix) (all_states : list string) : Matrix :=
  fold_left
    (fun pooled kv =>
       let tbl2 := reindex (snd kv) all_states all_states 0 in
       frame_add pooled tbl2)
    age_tables (const_frame 0 all_states all_states).

(** The body of the third loop, for one age. *)
Definition shrink_one (all_states : list string) (pooled_probs : Matrix)
    (pool_weight : Q) (tbl : Matrix) : Matrix :=
  let tbl2 := reindex tbl all_states all_states 0 in
  let probs := row_normalize tbl2 in
  let shrunk := frame_add (frame_scale (1 - pool_weight) probs)
                          (frame_scale pool_weight pooled_probs) in
  shrunk.

Definition shrink_toward_pool (age_tables : Dict Matrix) (pool_weight : Q)
    : Dict Matrix :=
  let all_states := all_states_of age_tables in
  let pooled := pooled_of age_tables all_states in
  let pooled_probs := row_normalize pooled in
  fold_left
    (fun out kv =>
       dict_set out (fst kv) (shrink_one all_states pooled_probs pool_weight (snd kv)))
    age_tables [].

(** ** Loan records *)

(** A timestamp: calendar date and the time of day in nanoseconds. *)
Record Timestamp : Type := mkTimestamp
  { year : Z;
    month : Z;
    day : Z;
    time_ns : Z }.

Definition Timestamp_eqb (a b : Timestamp) : bool :=
  Z.eqb (year a) (year b) && Z.eqb (month a) (month b) &&
  Z.eqb (day a) (day b) && Z.eqb (time_ns a) (time_ns b).

Definition Timestamp_leb (a b : Timestamp) : bool :=
  label_leb (year a, (month a, (day a, time_ns a)))
            (year b, (month b, (day b, time_ns b))).

(** [a < b] on timestamps: [a] is strictly earlier than [b]. *)
Definition Timestamp_ltb (a b : Timestamp) : bool :=
  Timestamp_leb a b && negb (Timestamp_eqb a b).

#[export] Instance Timestamp_Label : Label Timestamp :=
  {| label_eqb := Timestamp_eqb;
     label_leb := Timestamp_leb |}.

(** One observation of one loan. *)
Record LoanRow : Type := mkLoanRow
  { loan_id : string;
    origination_date : Timestamp;
    observation_date : Timestamp;
    delinquency_bucket : string;
    balance : Q }.

(** The table of records.  The column [age_months] is either absent
    ([Raw]) or present with one value per row ([Aged]). *)
Inductive LoanFrame : Type :=
  | Raw (rows : list LoanRow)
  | Aged (rows : list (LoanRow * Z)).

Definition has_age_col (df : LoanFrame) : bool :=
  match df with Raw _ => false | Aged _ => true end.

Definition loan_rows (df : LoanFrame) : list LoanRow :=
  match df with Raw rows => rows | Aged rows => map fst rows end.

(** ** Age in months *)

(** [ts.to_period('M')]: the ordinal of the calendar month holding the
    timestamp, counted from January 1970. *)
Definition to_period_M (t : Timestamp) : Z :=
  ((year t - 1970) * 12 + (month t - 1))%Z.

(** [(obs.to_period('M') - orig.to_period('M')).n] *)
Definition age_of (r : LoanRow) : Z :=
  (to_period_M (observation_date r) - to_period_M (origination_date r))%Z.

(** [compute_age_months]: the column is added to, or overwritten on, a
    copy of the table. *)
Definition compute_age_months (df : LoanFrame) : LoanFrame :=
  Aged (map (fun r => (r, age_of r)) (loan_rows df)).

Definition aged_rows (df : LoanFrame) : list (LoanRow * Z) :=
  match df with
  | Raw _ => []
  | Aged rows => rows
  end.

(** ** Vintage pivot *)

(** Key of the [groupby] of [build_vintage_pivot]: vintage, age, state. *)
Definition PivotKey : Type := (Timestamp * Z) * string.

Definition pivot_key (ra : LoanRow * Z) : PivotKey :=
  ((origination_date (fst ra), snd ra), delinquency_bucket (fst ra)).

(** The sum of the values of the rows that fall under one group key. *)
Definition group_sum {K R} `{Label K} (key : R -> K) (val : R -> Q)
    (rs : list R) (k : K) : Q :=
  row_sum (map val (filter (fun r => label_eqb (key r) k) rs)).

(** [df.groupby([vintage, age, state])[value].sum().reset_index()]: one
    row per distinct key, in key order, holding the sum of the balances.
    A [LoanRow] misses no value, so every row has a key; the rows that
    miss one are treated in [groupby_sum_records]. *)
Definition groupby_sum (rows : list (LoanRow * Z)) : list (PivotKey * Q) :=
  map (fun k => (k, group_sum pivot_key (fun ra => balance (fst ra)) rows k))
      (unique_sorted (map pivot_key rows)).

(** The aggregation of [pivot_table] (the mean, its default) over the
    values found under one cell, [fill_value] when there is none. *)
Definition mean (l : list Q) : Q := row_sum l / inject_Z (Z.of_nat (length l)).

Definition pivot_cell (grouped : list (PivotKey * Q)) (fill : Q)
    (va : Timestamp * Z) (s : string) : Q :=
  match filter (fun kq => label_eqb (fst kq) (va, s)) grouped with
  | [] => fill
  | found => mean (map snd found)
  end.

(** [grouped.pivot_table(index=[vintage, age], columns=state,
    values=value, fill_value=0)] *)
Definition pivot_table (grouped : list (PivotKey * Q)) (fill : Q)
    : DataFrame (Timestamp * Z) string :=
  let idx := unique_sorted (map (fun kq => fst (fst kq)) grouped) in
  let cols := unique_sorted (map (fun kq => snd (fst kq)) grouped) in
  mkFrame idx cols
    (map (fun va => map (fun s => pivot_cell grouped fill va s) cols) idx).

Definition build_vintage_pivot (df : LoanFrame) : DataFrame (Timestamp * Z) string :=
  let df := if has_age_col df then df else compute_age_months df in
  let grouped := groupby_sum (aged_rows df) in
  let pivot := pivot_table grouped 0 in
  pivot.

(** ** Vintage pivot over records with missing values *)

(** One record as read from a file: a date, the state or the balance may
    be missing ([NaT], [NaN]). *)
Record LoanRecord : Type := mkLoanRecord
  { rec_loan_id : string;
    rec_origination_date : option Timestamp;
    rec_observation_date : option Timestamp;
    rec_delinquency_bucket : option string;
    rec_balance : option Q }.

(** The table of such records.  The column [age_months] is either absent
    or present, and then an age may be missing too. *)
Inductive RecordFrame : Type :=
  | RawRecords (rows : list LoanRecord)
  | AgedRecords (rows : list (LoanRecord * option Z)).

Definition has_age_col_records (df : RecordFrame) : bool :=
  match df with RawRecords _ => false | AgedRecords _ => true end.

Definition record_rows (df : RecordFrame) : list LoanRecord :=
  match df with RawRecords rows => rows | AgedRecords rows => map fst rows end.

(** [(obs.to_period('M') - orig.to_period('M')).n] on one record.  Where a
    date is missing the difference is [NaT], which has no [n]: the lambda
    raises ([None]). *)
Definition record_age (r : LoanRecord) : option Z :=
  match rec_observation_date r, rec_origination_date r with
  | Some obs, Some orig => Some (to_period_M obs - to_period_M orig)%Z
  | _, _ => None
  end.

(** The [apply] of [compute_age_months] over the rows: it raises as soon
    as the lambda raises on one of them. *)
Fixpoint ages_of_records (rows : list LoanRecord)
    : option (list (LoanRecord * option Z)) :=
  match rows with
  | [] => Some []
  | r :: rows =>
      match record_age r, ages_of_records rows with
      | Some a, Some rest => Some ((r, Some a) :: rest)
      | _, _ => None
      end
  end.

Definition compute_age_months_records (df : RecordFrame) : option RecordFrame :=
  match ages_of_records (record_rows df) with
  | Some rows => Some (AgedRecords rows)
  | None => None
  end.

Definition aged_records (df : RecordFrame) : list (LoanRecord * option Z) :=
  match df with
  | RawRecords _ => []
  | AgedRecords rows => rows
  end.

(** The group key of a record: there is one only when the vintage, the
    age and the state are all present. *)
Definition record_key (ra : LoanRecord * option Z) : option PivotKey :=
  match rec_origination_date (fst ra), snd ra, rec_delinquency_bucket (fst ra) with
  | Some v, Some a, Some s => Some ((v, a), s)
  | _, _, _ => None
  end.

(** What a record adds to the sum of its group: [sum] skips a missing
    balance. *)
Definition record_value (r : LoanRecord) : Q :=
  match rec_balance r with
  | Some b => b
  | None => 0
  end.

(** The rows that [groupby] keeps ([dropna=True], its default), each with
    its key and its value: a row with a missing key is left out. *)
Definition keyed_rows (rows : list (LoanRecord * option Z)) : list (PivotKey * Q) :=
  flat_map (fun ra => match record_key ra with
                      | Some k => [(k, record_value (fst ra))]
                      | None => []
                      end) rows.

(** [df.groupby([vintage, age, state])[value].sum().reset_index()] *)
Definition groupby_sum_records (rows : list (LoanRecord * option Z))
    : list (PivotKey * Q) :=
  let kept := keyed_rows rows in
  map (fun k => (k, group_sum fst snd kept k)) (unique_sorted (map fst kept)).

(** [build_vintage_pivot] on a table that may miss values; [None] when
    the call raises. *)
Definition build_vintage_pivot_records (df : RecordFrame)
    : option (DataFrame (Timestamp * Z) string) :=
  match (if has_age_col_records df then Some df
         else compute_age_months_records df) with
  | Some df =>
      let grouped := groupby_sum_records (aged_records df) in
      let pivot := pivot_table grouped 0 in
      Some pivot
  | None => None
  end.

(** The rows as [build_vintage_pivot] groups them: with the age column it
    found or computed. *)
Definition with_ages_records (df : RecordFrame)
    : option (list (LoanRecord * option Z)) :=
  match (if has_age_col_records df then Some df
         else compute_age_months_records df) with
  | Some df => Some (aged_records df)
  | None => None
  end.

(** A record is complete when its vintage, age and state are present. *)
Definition complete (ra : LoanRecord * option Z) : bool :=
  match record_key ra with
  | Some _ => true
  | None => false
  end.

Definition dated (r : LoanRecord) : bool :=
  match rec_observation_date r, rec_origination_date r with
  | Some _, Some _ => true
  | _, _ => false
  end.

(** The ages are there or can be computed: the age column is present, or
    no date is missing. *)
Definition ages_available (df : RecordFrame) : bool :=
  has_age_col_records df || forallb dated (record_rows df).

(** A table without missing values, read as a table of records. *)
Definition record_of (r : LoanRow) : LoanRecord :=
  mkLoanRecord (loan_id r) (Some (origination_date r)) (Some (observation_date r))
               (Some (delinquency_bucket r)) (Some (balance r)).

Definition records_of (df : LoanFrame) : RecordFrame :=
  match df with
  | Raw rows => RawRecords (map record_of rows)
  | Aged rows => AgedRecords (map (fun ra => (record_of (fst ra), Some (snd ra))) rows)
  end.

(** ** Empirical transitions *)

(** A row of [df2]: the three selected columns and [next_age]. *)
Record CurrRow : Type := mkCurrRow
  { c_id : string;
    c_age : Z;
    c_state : string;
    c_next_age : Z }.

(** A row of [df_next]: [next_age] renamed to the age column and the
    state column renamed to [to_state]. *)
Record NextRow : Type := mkNextRow
  { n_id : string;
    n_age : Z;
    n_to_state : string }.

(** A row of [joined]. *)
Record JoinedRow : Type := mkJoinedRow
  { j_id : string;
    j_age : Z;
    j_state : string;
    j_next_age : Z;
    j_to_state : string }.

(** Stable insertion by the key [(id, age)], for [sort_values]. *)
Fixpoint insert_by_key (x : string * Z * string) (l : list (string * Z * string))
    : list (string * Z * string) :=
  match l with
  | [] => [x]
  | y :: l' =>
      if label_leb (fst x) (fst y) then x :: l else y :: insert_by_key x l'
  end.

(** [df[[id, age, state]].copy().sort_values([id, age])] *)
Definition select_sorted (rows : list (LoanRow * Z)) : list (string * Z * string) :=
  fold_right insert_by_key []
    (map (fun ra => (loan_id (fst ra), snd ra, delinquency_bucket (fst ra))) rows).

(** [df_curr.join(df_next, how='inner')] on the index [(id, age)]: every
    row of the left frame with every row of the right frame under the same
    key. *)
Definition join_inner (df_curr : list CurrRow) (df_next : list NextRow)
    : list JoinedRow :=
  flat_map
    (fun c =>
       map (fun n => mkJoinedRow (c_id c) (c_age c) (c_state c) (c_next_age c)
                                 (n_to_state n))
           (filter (fun n => label_eqb (n_id n, n_age n) (c_id c, c_age c)) df_next))
    df_curr.

(** [pd.crosstab(rows, cols)]: the counts of the pairs, over the sorted
    distinct values seen on either side. *)
Definition crosstab (pairs : list (string * string)) : Matrix :=
  let idx := unique_sorted (map fst pairs) in
  let cols := unique_sorted (map snd pairs) in
  mkFrame idx cols
    (map (fun r =>
            map (fun c =>
                   inject_Z (Z.of_nat
                     (length (filter (fun p => label_eqb p (r, c)) pairs))))
                cols)
         idx).

(** The rows of [joined], from the table with its age column. *)
Definition joined_of (rows : list (LoanRow * Z)) : list JoinedRow :=
  let df2 :=
    map (fun r => mkCurrRow (fst (fst r)) (snd (fst r)) (snd r) (snd (fst r) + 1)%Z)
        (select_sorted rows) in
  let df_next := map (fun c => mkNextRow (c_id c) (c_next_age c) (c_state c)) df2 in
  let df_curr := df2 in
  join_inner df_curr df_next.

(** The number of records of entity [e] at age [a]. *)
Definition records_at (rows : list (LoanRow * Z)) (e : string) (a : Z) : nat :=
  length (filter (fun ra => String.eqb (loan_id (fst ra)) e && Z.eqb (snd ra) a) rows).

(** The number of rows of [joined] of entity [e] under age [a]. *)
Definition joined_at (joined : list JoinedRow) (e : string) (a : Z) : nat :=
  length (filter (fun j => String.eqb (j_id j) e && Z.eqb (j_age j) a) joined).

(** The body of the loop over the age groups of [joined]. *)
Definition count_step (joined : list JoinedRow) (trans : Dict Matrix) (age : Z)
    : Dict Matrix :=
  let grp := filter (fun j => Z.eqb (j_age j) age) joined in
  let table := crosstab (map (fun j => (j_state j, j_to_state j)) grp) in
  dict_set trans age table.

Definition compute_empirical_transitions (df : LoanFrame) : Dict Matrix :=
  let df := if has_age_col df then df else compute_age_months df in
  let joined := joined_of (aged_rows df) in
  fold_left (count_step joined) (unique_sorted (map j_age joined)) [].

(** A frame as pandas builds it: distinct labels on either axis, one row
    per row label and one cell per column label. *)
Definition well_formed {I C} (df : DataFrame I C) : Prop :=
  NoDup (index df) /\ NoDup (columns df) /\
  shape (length (index df)) (length (columns df)) (values df).


(** The records with their ages as [build_vintage_pivot] and
    [compute_empirical_transitions] use them: the age column when it is
    there, the ages derived from the dates otherwise. *)
Definition with_ages (df : LoanFrame) : list (LoanRow * Z) :=
  aged_rows (if has_age_col df then df else compute_age_months df).

(** The largest 64-bit integer: an integer cell of a frame holds no more. *)
Definition int64_max : Q := inject_Z (2 ^ 63 - 1).

(** ** Orders on labels *)

(** The order of a label type compares any two labels. *)
Class LabelTotal (A : Type) `{Label A} : Prop :=
  label_leb_total : forall x y : A, label_leb x y = true \/ label_leb y x = true.

(** Every element is below the next one. *)
Definition ascending {A} `{Label A} (l : list A) : Prop :=
  Sorted (fun x y => label_leb x y = true) l.

(** ** Sample inputs *)

Section Samples.
Local Open Scope string_scope.

(** Age 0 saw transitions out of state A only; age 1 saw one kind of
  transition, out of state B. *)
Definition sample_age0 : Matrix :=
mkFrame ["A"; "B"] ["A"; "B"] [[8; 2]; [0; 0]].

Definition sample_age1 : Matrix :=
mkFrame ["B"] ["A"] [[3]].

Definition sample_tables : Dict Matrix :=
[(0%Z, sample_age0); (1%Z, sample_age1)].

(** Origination on 20 January 2020, observation ten days earlier. *)
Definition early_observation : LoanRow :=
mkLoanRow "L1" (mkTimestamp 2020 1 20 0) (mkTimestamp 2020 1 10 0) "current" 100.

(** Origination on 31 January 2020, observation the next day. *)
Definition month_end_origination : LoanRow :=
mkLoanRow "L2" (mkTimestamp 2020 1 31 0) (mkTimestamp 2020 2 1 0) "current" 100.

(** Origination in March 2020, observation in January 2020. *)
Definition earlier_month_observation : LoanRow :=
mkLoanRow "L3" (mkTimestamp 2020 3 5 0) (mkTimestamp 2020 1 25 0) "current" 100.

(** A record of an entity at an age in a state; the dates play no part
  once the age column is there. *)
Definition obs (id : string) (age : Z) (state : string) : LoanRow * Z :=
(mkLoanRow id (mkTimestamp 2020 1 1 0) (mkTimestamp 2020 1 1 0) state 1, age).

(** Entity X at ages 0, 1, 2 in states A, B, C. *)
Definition entity_X : LoanFrame :=
Aged [obs "X" 0 "A"; obs "X" 1 "B"; obs "X" 2 "C"].

(** Entity Y at ages 0 and 2, with no record at age 1. *)
Definition entity_Y : LoanFrame :=
Aged [obs "Y" 0 "A"; obs "Y" 2 "C"].

(** Entity X with two records at age 0 and three at age 1. *)
Definition entity_X_repeated : LoanFrame :=
Aged [obs "X" 0 "A"; obs "X" 0 "A";
      obs "X" 1 "B"; obs "X" 1 "B"; obs "X" 1 "B"].

(** Two records of the vintage of January 2020, observed in the month of
  origination; the second has no state. *)
Definition sample_missing_state : RecordFrame :=
RawRecords
  [mkLoanRecord "L1" (Some (mkTimestamp 2020 1 1 0)) (Some (mkTimestamp 2020 1 15 0))
                (Some "current") (Some 3);
   mkLoanRecord "L2" (Some (mkTimestamp 2020 1 1 0)) (Some (mkTimestamp 2020 1 15 0))
                None (Some 4)].

End Samples.

(** * The functions over a store of objects

    The seven public functions again, now over a store in which every
    pandas object, dict and set has an identity: a method that returns a
    new object allocates, an assignment into an object ([df[col] = ...],
    [df.loc[mask] = ...], [pooled += ...], [d[k] = ...], [s.update(...)])
    overwrites the object in place. *)

Module Store.

(** A reference is the number of objects allocated before the object. *)
Definition ref : Type := nat.

Section Objects.
Variables I C : Type.

Inductive Obj : Type :=
  | OLoans (t : LoanFrame)
  | OSel (rows : list (string * Z * string))
  | OCurr (rows : list CurrRow)
  | OFrame (f : DataFrame I C)
  | OPivot (p : DataFrame (Timestamp * Z) string)
  | OSet (s : list string)
  | ODict (d : Dict ref).

(** The store, newest object first. *)
Definition heap : Type := list Obj.

Fixpoint lookup (h : heap) (r : ref) : option Obj :=
  match h with
  | [] => None
  | o :: h' => if Nat.eqb r (length h') then Some o else lookup h' r
  end.

Fixpoint update (h : heap) (r : ref) (o' : Obj) : option heap :=
  match h with
  | [] => None
  | o :: h' =>
      if Nat.eqb r (length h') then Some (o' :: h')
      else option_map (cons o) (update h' r o')
  end.

(** Computations over the store; [None] stands for a raised exception (a
    dangling reference or an object of the wrong kind). *)
Definition M (A : Type) : Type := heap -> option (A * heap).

Definition ret {A} (a : A) : M A := fun h => Some (a, h).

Definition bind {A B} (m : M A) (k : A -> M B) : M B :=
  fun h => match m h with
           | Some (a, h') => k a h'
           | None => None
           end.

Definition fail {A} : M A := fun _ => None.

Definition alloc (o : Obj) : M ref := fun h => Some (length h, o :: h).

Definition get (r : ref) : M Obj :=
  fun h => match lookup h r with
           | Some o => Some (o, h)
           | None => None
           end.

Definition put (r : ref) (o : Obj) : M unit :=
  fun h => match update h r o with
           | Some h' => Some (tt, h')
           | None => None
           end.

(** A [for] loop. *)
Fixpoint for_each {A} (l : list A) (body : A -> M unit) : M unit :=
  match l with
  | [] => ret tt
  | x :: l' => bind (body x) (fun _ => for_each l' body)
  end.

(** Every object of [h] is still there, unchanged, in [h']. *)
Definition preserves (h h' : heap) : Prop :=
  forall x o, lookup h x = Some o -> lookup h' x = Some o.

(** [r] names no object of [h]. *)
Definition fresh (h : heap) (r : ref) : Prop := lookup h r = None.

(** Running [m] from [h] returns, with a result and a final store that
    satisfy [Q]. *)
Definition returns {A} (h : heap) (m : M A) (Q : A -> heap -> Prop) : Prop :=
  exists a h', m h = Some (a, h') /\ Q a h'.

(** What the public functions guarantee: whatever the store [h] at the
    call, the call returns a reference [r] that names no object of [h],
    in a store that still holds every object of [h] unchanged and where
    [r] names an object satisfying [P]. *)
Definition returns_new (h : heap) (m : M ref) (P : heap -> Obj -> Prop) : Prop :=
  returns h m (fun r h' =>
    fresh h r /\ preserves h h' /\ exists o, lookup h' r = Some o /\ P h' o).

End Objects.

Arguments OLoans {I C} t.
Arguments OSel {I C} rows.
Arguments OCurr {I C} rows.
Arguments OFrame {I C} f.
Arguments OPivot {I C} p.
Arguments OSet {I C} s.
Arguments ODict {I C} d.
Arguments lookup {I C} h r.
Arguments update {I C} h r o'.
Arguments ret {I C A} a.
Arguments bind {I C A B} m k.
Arguments fail {I C A}.
Arguments alloc {I C} o.
Arguments get {I C} r.
Arguments put {I C} r o.
Arguments for_each {I C A} l body.
Arguments preserves {I C} h h'.
Arguments fresh {I C} h r.
Arguments returns {I C A} h m Q.
Arguments returns_new {I C} h m P.

Notation "x <- m ;; k" := (bind m (fun x => k))
  (at level 61, m at next level, right associativity).
Notation "m ;;; k" := (bind m (fun _ => k))
  (at level 61, right associativity).

Section Getters.
Context {I C : Type}.

Definition get_loans (r : ref) : M I C LoanFrame :=
  o <- get r ;; match o with OLoans t => ret t | _ => fail end.

Definition get_sel (r : ref) : M I C (list (string * Z * string)) :=
  o <- get r ;; match o with OSel rows => ret rows | _ => fail end.

Definition get_curr (r : ref) : M I C (list CurrRow) :=
  o <- get r ;; match o with OCurr rows => ret rows | _ => fail end.

Definition get_frame (r : ref) : M I C (DataFrame I C) :=
  o <- get r ;; match o with OFrame f => ret f | _ => fail end.

Definition get_pivot (r : ref) : M I C (DataFrame (Timestamp * Z) string) :=
  o <- get r ;; match o with OPivot p => ret p | _ => fail end.

Definition get_set (r : ref) : M I C (list string) :=
  o <- get r ;; match o with OSet s => ret s | _ => fail end.

Definition get_dict (r : ref) : M I C (Dict ref) :=
  o <- get r ;; match o with ODict d => ret d | _ => fail end.

(** [x.copy()] *)
Definition copy (r : ref) : M I C ref := o <- get r ;; alloc o.

End Getters.

(** The dict of references [d] read through the store. *)
Definition resolve {I C} (h : heap I C) (d : Dict ref) : option (Dict (DataFrame I C)) :=
  fold_right
    (fun kv acc =>
       match lookup h (snd kv), acc with
       | Some (OFrame f), Some l => Some ((fst kv, f) :: l)
       | _, _ => None
       end)
    (Some []) d.

(** Every reference held by the dict names no object of [h]. *)
Definition all_fresh {I C} (h : heap I C) (d : Dict ref) : Prop :=
  Forall (fun kv => fresh h (snd kv)) d.

End Store.

(** The seven functions, statement by statement, over the store. *)
Module Stateful.
Import Store.

Section Programs.
Context {I C : Type}.

Definition compute_age_months (df : ref) : M I C ref :=
  df <- copy df ;;
  t <- get_loans df ;;
  put df (OLoans (Aged (map (fun r => (r, age_of r)) (loan_rows t)))) ;;;
  ret df.

Definition build_vintage_pivot (df : ref) : M I C ref :=
  t <- get_loans df ;;
  df <- (if has_age_col t then ret df else compute_age_months df) ;;
  t <- get_loans df ;;
  let grouped := groupby_sum (aged_rows t) in
  pivot <- alloc (OPivot (pivot_table grouped 0)) ;;
  p <- get_pivot pivot ;;
  put pivot (OPivot p) ;;;                       (* pivot.index.names = ... *)
  p <- get_pivot pivot ;;
  put pivot (OPivot p) ;;;                       (* pivot.columns.name = ... *)
  ret pivot.

End Programs.

(** [pd.crosstab] of one age group, stored under the age in [trans]. *)
Definition count_group (joined : list JoinedRow) (trans : ref) (age : Z)
    : M string string unit :=
  let grp := filter (fun j => Z.eqb (j_age j) age) joined in
  table <- alloc (OFrame (crosstab (map (fun j => (j_state j, j_to_state j)) grp))) ;;
  d <- get_dict trans ;;
  put trans (ODict (dict_set d age table)).

Definition compute_empirical_transitions (df : ref) : M string string ref :=
  t <- get_loans df ;;
  df <- (if has_age_col t then ret df else compute_age_months df) ;;
  t <- get_loans df ;;
  df2 <- alloc (OSel (select_sorted (aged_rows t))) ;;
  rows <- get_sel df2 ;;
  put df2 (OCurr (map (fun r => mkCurrRow (fst (fst r)) (snd (fst r)) (snd r)
                                          (snd (fst r) + 1)%Z) rows)) ;;;
  rows <- get_curr df2 ;;
  let df_next := map (fun c => mkNextRow (c_id c) (c_next_age c) (c_state c)) rows in
  let df_curr := rows in
  let joined := join_inner df_curr df_next in
  trans <- alloc (ODict []) ;;
  for_each (unique_sorted (map j_age joined)) (count_group joined trans) ;;;
  ret trans.

Section FramePrograms.
Context {I C : Type}.

Definition row_normalize (df : ref) : M I C ref :=
  c <- copy df ;;
  f <- get_frame c ;;
  df <- alloc (OFrame f) ;;                                   (* astype(float) *)
  f <- get_frame df ;;
  let row_sums := sum_axis1 f in
  let nonzero := map (fun s => negb (Qeq_bool s 0)) row_sums in
  put df (OFrame (mkFrame (index f) (columns f)
            (loc_set nonzero
               (div_axis0 (loc_get nonzero (values f)) (loc_get nonzero row_sums))
               (values f)))) ;;;
  f <- get_frame df ;;
  put df (OFrame (mkFrame (index f) (columns f)
            (loc_fill (map negb nonzero) 0 (values f)))) ;;;
  ret df.

Definition laplace_smoothing (counts : ref) (alpha : Q) : M I C ref :=
  f <- get_frame counts ;;
  counts_s <- alloc (OFrame (add_scalar f alpha)) ;;
  probs <- row_normalize counts_s ;;
  ret probs.

Definition ensure_probability_matrix (df : ref) : M I C ref :=
  f <- get_frame df ;;
  df <- alloc (OFrame (clip_lower0 f)) ;;
  row_normalize df.

End FramePrograms.

(** [s.update(xs)] on the set object [s]. *)
Definition set_update_in (s : ref) (xs : list string) : M string string unit :=
  acc <- get_set s ;;
  put s (OSet (set_update acc xs)).

Definition shrink_toward_pool (age_tables : ref) (pool_weight : Q)
    : M string string ref :=
  entries <- get_dict age_tables ;;
  states <- alloc (OSet []) ;;
  for_each entries (fun kv =>
    tbl <- get_frame (snd kv) ;;
    set_update_in states (index tbl) ;;;
    set_update_in states (columns tbl)) ;;;
  s <- get_set states ;;
  let all_states := sorted s in
  pooled <- alloc (OFrame (const_frame 0 all_states all_states)) ;;
  for_each entries (fun kv =>
    tbl <- get_frame (snd kv) ;;
    tbl2 <- alloc (OFrame (reindex tbl all_states all_states 0)) ;;
    p <- get_frame pooled ;;
    t2 <- get_frame tbl2 ;;
    put pooled (OFrame (frame_add p t2))) ;;;
  pooled_probs <- row_normalize pooled ;;
  out <- alloc (ODict []) ;;
  for_each entries (fun kv =>
    tbl <- get_frame (snd kv) ;;
    tbl2 <- alloc (OFrame (reindex tbl all_states all_states 0)) ;;
    probs <- row_normalize tbl2 ;;
    p <- get_frame probs ;;
    pp <- get_frame pooled_probs ;;
    shrunk <- alloc (OFrame (frame_add (frame_scale (1 - pool_weight) p)
                                       (frame_scale pool_weight pp))) ;;
    d <- get_dict out ;;
    put out (ODict (dict_set d (fst kv) shrunk))) ;;;
  ret out.

End Stateful.

(** A store holding a loan table, two count matrices and the dict that
    maps ages 0 and 1 to them, under the references 0, 1, 2 and 3. *)
Definition sample_store : Store.heap string string :=
  [Store.ODict [(0%Z, 1%nat); (1%Z, 2%nat)];
   Store.OFrame sample_age1;
   Store.OFrame sample_age0;
   Store.OLoans entity_X].

(** ** Label types *)

#[export] Instance string_LabelOk : LabelOk string.
Proof. exact String.eqb_eq. Qed.

#[export] Instance Z_LabelOk : LabelOk Z.
Proof. exact Z.eqb_eq. Qed.

#[export] Instance pair_LabelOk {A B} `{LabelOk A} `{LabelOk B} : LabelOk (A * B).
Proof.
  intros [a b] [a' b']; simpl.
  rewrite andb_true_iff, !label_eqb_eq. split.
  - intros [-> ->]. reflexivity.
  - intros E. inversion E. auto.
Qed.

#[export] Instance Timestamp_LabelOk : LabelOk Timestamp.
Proof.
  intros a b. destruct a, b; simpl; unfold Timestamp_eqb; simpl.
  rewrite !andb_true_iff, !Z.eqb_eq. split.
  - intros [[[-> ->] ->] ->]. reflexivity.
  - intros E. inversion E. auto.
Qed.

(** ** Lemmas on rows *)

Lemma row_sum_cons x r : row_sum (x :: r) = x + row_sum r.
Proof. reflexivity. Qed.

Lemma row_sum_Forall2 a b : Forall2 Qeq a b -> row_sum a == row_sum b.
Proof.
  induction 1 as [|x y a b Hxy _ IH]; simpl.
  - reflexivity.
  - rewrite Hxy, IH. reflexivity.
Qed.

Lemma row_sum_scale (s : Q) r :
  row_sum (map (fun x => x / s) r) == row_sum r / s.
Proof.
  induction r as [|x r IH]; simpl.
  - unfold Qdiv. ring.
  - rewrite IH. unfold Qdiv. ring.
Qed.

Lemma row_sum_zeros {A} (r : list A) : row_sum (map (fun _ => 0) r) == 0.
Proof.
  induction r as [|x r IH]; simpl; [reflexivity|]. rewrite IH. ring.
Qed.

Lemma row_sum_all_zero r : Forall (fun x => x == 0) r -> row_sum r == 0.
Proof.
  induction 1 as [|x r Hx _ IH]; simpl; [reflexivity|]. rewrite Hx, IH. ring.
Qed.

Lemma map_zero_repeat {A} (r : list A) : map (fun _ => 0) r = repeat 0 (length r).
Proof. induction r; simpl; congruence. Qed.

(** The two masked assignments of [row_normalize] act row by row. *)
Lemma row_normalize_rows (rows : list (list Q)) :
  let sums := map row_sum rows in
  let nonzero := map (fun s => negb (Qeq_bool s 0)) sums in
  loc_fill (map negb nonzero) 0
    (loc_set nonzero (div_axis0 (loc_get nonzero rows) (loc_get nonzero sums)) rows)
  = map normalize_row rows.
Proof.
  induction rows as [|r rows IH]; simpl; [reflexivity|].
  unfold normalize_row at 1.
  destruct (Qeq_bool (row_sum r) 0) eqn:E; simpl.
  - f_equal. exact IH.
  - f_equal. exact IH.
Qed.

Lemma row_normalize_values {I C} (df : DataFrame I C) :
  values (row_normalize df) = map normalize_row (values df).
Proof. unfold row_normalize, sum_axis1; simpl. apply row_normalize_rows. Qed.

Lemma normalize_row_length r : length (normalize_row r) = length r.
Proof. unfold normalize_row. destruct (Qeq_bool _ _); apply length_map. Qed.

Lemma normalize_row_nonzero r :
  ~ row_sum r == 0 -> normalize_row r = map (fun x => x / row_sum r) r.
Proof.
  intros H. unfold normalize_row.
  destruct (Qeq_bool (row_sum r) 0) eqn:E; [|reflexivity].
  apply Qeq_bool_iff in E. contradiction.
Qed.

Lemma normalize_row_zero r :
  row_sum r == 0 -> normalize_row r = repeat 0 (length r).
Proof.
  intros H. unfold normalize_row.
  destruct (Qeq_bool (row_sum r) 0) eqn:E.
  - apply map_zero_repeat.
  - apply Qeq_bool_neq in E. contradiction.
Qed.

Lemma normalize_row_sum_one r : ~ row_sum r == 0 -> row_sum (normalize_row r) == 1.
Proof.
  intros H. rewrite (normalize_row_nonzero r H), row_sum_scale. field. exact H.
Qed.

Lemma zeros_Forall2 (a b : list Q) :
  Forall2 Qeq a b -> Forall2 Qeq (map (fun _ => 0) a) (map (fun _ => 0) b).
Proof. induction 1; simpl; constructor; auto. reflexivity. Qed.

Lemma div_Forall2 (s t : Q) a b :
  s == t -> Forall2 Qeq a b ->
  Forall2 Qeq (map (fun x => x / s) a) (map (fun x => x / t) b).
Proof.
  intros Hst. induction 1 as [|x y a b Hxy _ IH]; simpl; constructor; auto.
  rewrite Hxy, Hst. reflexivity.
Qed.

Lemma normalize_row_Forall2 a b :
  Forall2 Qeq a b -> Forall2 Qeq (normalize_row a) (normalize_row b).
Proof.
  intros H. pose proof (row_sum_Forall2 a b H) as Hs.
  unfold normalize_row.
  destruct (Qeq_bool (row_sum a) 0) eqn:Ea, (Qeq_bool (row_sum b) 0) eqn:Eb.
  - now apply zeros_Forall2.
  - apply Qeq_bool_iff in Ea. apply Qeq_bool_neq in Eb. rewrite Hs in Ea. contradiction.
  - apply Qeq_bool_iff in Eb. apply Qeq_bool_neq in Ea. rewrite Hs in Ea. contradiction.
  - now apply div_Forall2.
Qed.

Lemma Forall2_Qeq_refl (r : list Q) : Forall2 Qeq r r.
Proof. induction r; constructor; auto. reflexivity. Qed.

Lemma rows_eq_refl (v : list (list Q)) : rows_eq v v.
Proof. induction v; constructor; auto. apply Forall2_Qeq_refl. Qed.

Lemma rows_eq_map (f g : list Q -> list Q) (v w : list (list Q)) :
  (forall a b, Forall2 Qeq a b -> Forall2 Qeq (f a) (g b)) ->
  rows_eq v w -> rows_eq (map f v) (map g w).
Proof.
  intros Hfg. induction 1; simpl; constructor; auto.
Qed.

Lemma row_normalize_frame_eq {I C} (a b : DataFrame I C) :
  frame_eq a b -> frame_eq (row_normalize a) (row_normalize b).
Proof.
  intros (Hi & Hc & Hv). repeat split; simpl; auto.
  change (rows_eq (values (row_normalize a)) (values (row_normalize b))).
  rewrite !row_normalize_values.
  apply rows_eq_map; auto. apply normalize_row_Forall2.
Qed.

Lemma div_one_Forall2 (s : Q) r : s == 1 -> Forall2 Qeq (map (fun x => x / s) r) r.
Proof.
  intros Hs. induction r as [|x r IH]; simpl; constructor; auto.
  rewrite Hs. field.
Qed.

Lemma zeros_of_all_zero r :
  Forall (fun x => x == 0) r -> Forall2 Qeq (map (fun _ => 0) r) r.
Proof.
  induction 1 as [|x r Hx _ IH]; simpl; constructor; auto.
  symmetry. exact Hx.
Qed.

Lemma normalize_row_fixed r :
  row_sum r == 1 \/ Forall (fun x => x == 0) r -> Forall2 Qeq (normalize_row r) r.
Proof.
  intros [H1 | H0].
  - rewrite normalize_row_nonzero by (rewrite H1; discriminate).
    now apply div_one_Forall2.
  - unfold normalize_row.
    destruct (Qeq_bool (row_sum r) 0) eqn:E.
    + now apply zeros_of_all_zero.
    + apply Qeq_bool_neq in E. elim E. now apply row_sum_all_zero.
Qed.

Lemma add_zero_Forall2 r : Forall2 Qeq (map (fun x => x + 0) r) r.
Proof. induction r; simpl; constructor; auto. ring. Qed.

(** ** Row normalisation and smoothing *)

(** C2: [row_normalize] keeps the labels and the shape of its input; a
    row whose sum is not zero becomes the row divided by its sum, which
    sums to 1, and a row whose sum is zero becomes a row of zeros. *)
Theorem row_normalize_spec {I C} (df : DataFrame I C) :
  index (row_normalize df) = index df /\
  columns (row_normalize df) = columns df /\
  length (values (row_normalize df)) = length (values df) /\
  forall i r, nth_error (values df) i = Some r ->
    exists r', nth_error (values (row_normalize df)) i = Some r' /\
      length r' = length r /\
      (~ row_sum r == 0 ->
         r' = map (fun x => x / row_sum r) r /\ row_sum r' == 1) /\
      (row_sum r == 0 -> r' = repeat 0 (length r)).
Proof.
  rewrite row_normalize_values. repeat split.
  - apply length_map.
  - intros i r Hr. exists (normalize_row r). repeat split.
    + now apply map_nth_error.
    + apply normalize_row_length.
    + now apply normalize_row_nonzero.
    + now apply normalize_row_sum_one.
    + now apply normalize_row_zero.
Qed.

Lemma row_normalize_spec_witness :
  exists r', nth_error (values (row_normalize
                 (mkFrame ["A"; "B"]%string ["A"; "B"]%string [[8; 2]; [0; 0]]))) 1
             = Some r' /\ r' = [0; 0].
Proof.
  destruct (row_normalize_spec
              (mkFrame ["A"; "B"]%string ["A"; "B"]%string [[8; 2]; [0; 0]]))
    as (_ & _ & _ & H).
  destruct (H 1%nat [0; 0] eq_refl) as (r' & Hn & _ & _ & Hz).
  exists r'. split; [exact Hn|]. apply Hz. reflexivity.
Defined.

(** C8: a frame whose rows each sum to 1 or are all zero is returned
    unchanged by [row_normalize], cell for cell. *)
Theorem row_normalize_idempotent {I C} (df : DataFrame I C) :
  (forall r, In r (values df) -> row_sum r == 1 \/ Forall (fun x => x == 0) r) ->
  frame_eq (row_normalize df) df.
Proof.
  intros H. repeat split; auto.
  change (rows_eq (values (row_normalize df)) (values df)).
  rewrite row_normalize_values.
  induction (values df) as [|r v IH]; simpl; constructor.
  - apply normalize_row_fixed. apply H. now left.
  - apply IH. intros r' Hr'. apply H. now right.
Qed.

Lemma row_normalize_idempotent_witness :
  frame_eq
    (row_normalize (mkFrame ["A"; "B"]%string ["A"; "B"]%string
                            [[3 # 4; 1 # 4]; [0; 0]]))
    (mkFrame ["A"; "B"]%string ["A"; "B"]%string [[3 # 4; 1 # 4]; [0; 0]]).
Proof.
  apply row_normalize_idempotent. simpl.
  intros r [<- | [<- | []]].
  - left. reflexivity.
  - right. repeat constructor.
Defined.

(** C6: with [alpha = 0], [laplace_smoothing] returns the matrix that
    [row_normalize] returns on the raw counts. *)
Theorem laplace_smoothing_alpha_zero {I C} (counts : DataFrame I C) :
  frame_eq (laplace_smoothing counts 0) (row_normalize counts).
Proof.
  unfold laplace_smoothing. apply row_normalize_frame_eq.
  repeat split; simpl.
  induction (values counts) as [|r v IH]; simpl; constructor; auto.
  apply add_zero_Forall2.
Qed.

(** ** Dicts *)

Lemma dict_set_fresh {V} (d : Dict V) k v :
  ~ In k (map fst d) -> dict_set d k v = d ++ [(k, v)].
Proof.
  induction d as [|[k' v'] d IH]; simpl; intros Hk; [reflexivity|].
  destruct (Z.eqb_spec k' k) as [->|Hne].
  - elim Hk. now left.
  - rewrite IH; auto.
Qed.

Lemma fold_dict_set_app {U V} (f : U -> V) (d : Dict U) (acc : Dict V) :
  NoDup (map fst acc ++ map fst d) ->
  fold_left (fun out kv => dict_set out (fst kv) (f (snd kv))) d acc
  = acc ++ map (fun kv => (fst kv, f (snd kv))) d.
Proof.
  revert acc. induction d as [|[k u] d IH]; simpl; intros acc Hnd.
  - now rewrite app_nil_r.
  - rewrite dict_set_fresh.
    + rewrite IH.
      * now rewrite <- app_assoc.
      * rewrite map_app; simpl. now rewrite <- app_assoc.
    + apply NoDup_remove_2 in Hnd. intros Hin. apply Hnd.
      apply in_or_app. now left.
Qed.

Lemma fold_dict_set_map {U V} (f : U -> V) (d : Dict U) :
  NoDup (map fst d) ->
  fold_left (fun out kv => dict_set out (fst kv) (f (snd kv))) d []
  = map (fun kv => (fst kv, f (snd kv))) d.
Proof. intros Hnd. now rewrite fold_dict_set_app. Qed.

Lemma dict_get_map {U V} (f : U -> V) (d : Dict U) k u :
  NoDup (map fst d) -> In (k, u) d ->
  dict_get (map (fun kv => (fst kv, f (snd kv))) d) k = Some (f u).
Proof.
  induction d as [|[k' u'] d IH]; simpl; intros Hnd Hin; [contradiction|].
  inversion Hnd as [|? ? Hk' Hnd']; subst.
  destruct Hin as [E | Hin].
  - inversion E; subst. now rewrite Z.eqb_refl.
  - destruct (Z.eqb_spec k' k) as [->|Hne].
    + elim Hk'. change k with (fst (k, u)). now apply in_map.
    + now apply IH.
Qed.

(** ** Shapes and cell-wise sums *)

Lemma shape_map_rows n m (f : list Q -> list Q) v :
  (forall r, length (f r) = length r) -> shape n m v -> shape n m (map f v).
Proof.
  intros Hf [Hn Hm]. split.
  - now rewrite length_map.
  - apply Forall_map. eapply Forall_impl; [|exact Hm].
    intros r Hr. simpl. now rewrite Hf.
Qed.

Lemma shape_grid {A B} (f : A -> B -> Q) (rs : list A) (cs : list B) :
  shape (length rs) (length cs) (map (fun r => map (fun c => f r c) cs) rs).
Proof.
  split.
  - apply length_map.
  - apply Forall_map, Forall_forall. intros r _. apply length_map.
Qed.

Lemma zip_with_length {A B D} (f : A -> B -> D) a b :
  length a = length b -> length (zip_with f a b) = length a.
Proof.
  revert b. induction a as [|x a IH]; intros [|y b]; simpl; intros E; try discriminate; auto.
Qed.

Lemma shape_zip_add n m v w :
  shape n m v -> shape n m w -> shape n m (zip_with (zip_with Qplus) v w).
Proof.
  intros [Hv1 Hv2] [Hw1 Hw2]. subst n. split.
  - now apply zip_with_length.
  - revert w Hw1 Hw2. induction Hv2 as [|r v Hr _ IH]; intros [|s w] Hw1 Hw2;
      simpl in *; try discriminate; constructor.
    + inversion Hw2; subst. rewrite zip_with_length; congruence.
    + inversion Hw2; subst. apply IH; auto.
Qed.

Lemma nth_zip_with {A B D} (f : A -> B -> D) a b i da db dd :
  (i < length a)%nat -> (i < length b)%nat ->
  nth i (zip_with f a b) dd = f (nth i a da) (nth i b db).
Proof.
  revert b i. induction a as [|x a IH]; intros [|y b] [|i]; simpl; intros Ha Hb;
    try lia; auto.
  apply IH; lia.
Qed.

Lemma nth_map_rows {A B} (f : A -> B) v i da db :
  (i < length v)%nat -> nth i (map f v) db = f (nth i v da).
Proof.
  intros Hi. rewrite (nth_indep _ db (f da)) by now rewrite length_map.
  apply map_nth.
Qed.

Lemma shape_nth_length n m v i :
  shape n m v -> (i < n)%nat -> length (nth i v []) = m.
Proof.
  intros [Hn Hm] Hi. rewrite Forall_forall in Hm. apply Hm, nth_In. lia.
Qed.

Lemma row_sum_zip_add a b :
  length a = length b -> row_sum (zip_with Qplus a b) == row_sum a + row_sum b.
Proof.
  revert b. induction a as [|x a IH]; intros [|y b]; simpl; intros E; try discriminate.
  - ring.
  - rewrite IH by congruence. ring.
Qed.

Lemma row_sum_mul (k : Q) r : row_sum (map (fun x => k * x) r) == k * row_sum r.
Proof.
  induction r as [|x r IH]; simpl.
  - ring.
  - rewrite IH. ring.
Qed.

Lemma row_sum_nonneg r : Forall (fun x => 0 <= x) r -> 0 <= row_sum r.
Proof.
  induction 1 as [|x r Hx _ IH]; simpl; [apply Qle_refl|].
  cbv beta in Hx. lra.
Qed.

Lemma nonneg_sum_zero r :
  Forall (fun x => 0 <= x) r -> row_sum r == 0 -> Forall (fun x => x == 0) r.
Proof.
  induction 1 as [|x r Hx Hr IH]; simpl; intros Hs; constructor;
    pose proof (row_sum_nonneg r Hr); cbv beta in Hx.
  - lra.
  - apply IH. lra.
Qed.

Lemma nonneg_zip_add v w :
  Forall (Forall (fun x => 0 <= x)) v -> Forall (Forall (fun x => 0 <= x)) w ->
  Forall (Forall (fun x => 0 <= x)) (zip_with (zip_with Qplus) v w).
Proof.
  intros Hv. revert w. induction Hv as [|r v Hr _ IH]; intros [|s w] Hw; simpl;
    constructor.
  - inversion Hw as [|? ? Hs _]; subst. clear -Hr Hs.
    revert s Hs. induction Hr as [|x r Hx _ IHr]; intros [|y s] Hs; simpl; constructor.
    + inversion Hs; subst. cbv beta in *. lra.
    + inversion Hs; subst. auto.
  - inversion Hw; subst. auto.
Qed.

(** ** Shrinkage *)

Section Shrink.
Variable age_tables : Dict Matrix.
Variable S : list string.

Lemma reindex_shape (tbl : Matrix) :
  shape (length S) (length S) (values (reindex tbl S S 0)).
Proof. apply shape_grid. Qed.

Lemma cell_at_nonneg (tbl : Matrix) r c :
  nonneg_frame tbl -> 0 <= cell_at tbl 0 r c.
Proof.
  intros Hnn. unfold cell_at.
  destruct (get_loc r (index tbl)) as [i|]; [|apply Qle_refl].
  destruct (get_loc c (columns tbl)) as [j|]; [|apply Qle_refl].
  destruct (nth_in_or_default i (values tbl) []) as [Hi | ->].
  - unfold nonneg_frame in Hnn. rewrite Forall_forall in Hnn.
    specialize (Hnn _ Hi). rewrite Forall_forall in Hnn.
    destruct (nth_in_or_default j (nth i (values tbl) []) 0) as [Hj | ->].
    + now apply Hnn.
    + apply Qle_refl.
  - destruct j; apply Qle_refl.
Qed.

Lemma reindex_nonneg (tbl : Matrix) :
  nonneg_frame tbl -> nonneg_frame (reindex tbl S S 0).
Proof.
  intros Hnn. unfold nonneg_frame; simpl.
  apply Forall_map, Forall_forall. intros r _.
  apply Forall_map, Forall_forall. intros c _.
  now apply cell_at_nonneg.
Qed.

(** The loop that accumulates the pooled counts keeps the labels, the
    shape and the sign of the accumulator. *)
Lemma pooled_loop_inv (d : Dict Matrix) (acc : Matrix) :
  forall pooled,
  pooled = fold_left (fun pooled kv => frame_add pooled (reindex (snd kv) S S 0)) d acc ->
  index pooled = index acc /\ columns pooled = columns acc /\
  (shape (length S) (length S) (values acc) ->
   shape (length S) (length S) (values pooled)) /\
  ((forall kv, In kv d -> nonneg_frame (snd kv)) -> nonneg_frame acc ->
   nonneg_frame pooled).
Proof.
  revert acc. induction d as [|kv d IH]; intros acc pooled ->; simpl.
  - auto.
  - destruct (IH (frame_add acc (reindex (snd kv) S S 0)) _ eq_refl)
      as (Hi & Hc & Hs & Hn).
    split; [exact Hi|]. split; [exact Hc|]. split.
    + intros Hacc. apply Hs. simpl. apply shape_zip_add; auto. apply shape_grid.
    + intros Hd Hacc. apply Hn; auto.
      unfold nonneg_frame. simpl. apply nonneg_zip_add; auto.
      apply (reindex_nonneg (snd kv)). auto.
Qed.

Lemma pooled_index : index (pooled_of age_tables S) = S.
Proof. apply (pooled_loop_inv age_tables (const_frame 0 S S) _ eq_refl). Qed.

Lemma pooled_columns : columns (pooled_of age_tables S) = S.
Proof. apply (pooled_loop_inv age_tables (const_frame 0 S S) _ eq_refl). Qed.

Lemma pooled_shape : shape (length S) (length S) (values (pooled_of age_tables S)).
Proof.
  apply (pooled_loop_inv age_tables (const_frame 0 S S) _ eq_refl). apply shape_grid.
Qed.

Lemma pooled_nonneg :
  (forall kv, In kv age_tables -> nonneg_frame (snd kv)) ->
  nonneg_frame (pooled_of age_tables S).
Proof.
  intros Hd. apply (pooled_loop_inv age_tables (const_frame 0 S S) _ eq_refl); auto.
  unfold nonneg_frame; simpl.
  apply Forall_map, Forall_forall. intros r _.
  apply Forall_map, Forall_forall. intros c _. apply Qle_refl.
Qed.
End Shrink.

Lemma shrink_toward_pool_get (age_tables : Dict Matrix) (w : Q) age tbl :
  NoDup (map fst age_tables) -> In (age, tbl) age_tables ->
  dict_get (shrink_toward_pool age_tables w) age
  = Some (shrink_one (all_states_of age_tables)
            (row_normalize (pooled_of age_tables (all_states_of age_tables))) w tbl).
Proof.
  intros Hnd Hin. unfold shrink_toward_pool.
  rewrite (fold_dict_set_map
             (shrink_one (all_states_of age_tables)
                (row_normalize (pooled_of age_tables (all_states_of age_tables))) w))
    by exact Hnd.
  now apply dict_get_map.
Qed.

(** Row [i] of a blended matrix is the blend of the two rows [i]. *)
Lemma shrink_one_row (S : list string) (pp tbl : Matrix) (w : Q) (i : nat) :
  shape (length S) (length S) (values pp) -> (i < length S)%nat ->
  nth i (values (shrink_one S pp w tbl)) []
  = zip_with Qplus
      (map (fun x => (1 - w) * x) (normalize_row (nth i (values (reindex tbl S S 0)) [])))
      (map (fun x => w * x) (nth i (values pp) [])).
Proof.
  intros [Hpp _] Hi. unfold shrink_one.
  cbn [values frame_add frame_scale].
  rewrite row_normalize_values.
  pose proof (reindex_shape S tbl) as [Hr _].
  rewrite (nth_zip_with _ _ _ _ [] [] []) by (rewrite !length_map; lia).
  rewrite (nth_map_rows _ _ _ [] []) by (rewrite length_map; lia).
  rewrite (nth_map_rows _ _ _ [] []) by lia.
  rewrite (nth_map_rows _ _ _ [] []) by lia.
  reflexivity.
Qed.

Lemma blend_row_sum (w : Q) p q :
  length p = length q ->
  row_sum (zip_with Qplus (map (fun x => (1 - w) * x) p) (map (fun x => w * x) q))
  == (1 - w) * row_sum p + w * row_sum q.
Proof.
  intros E. rewrite row_sum_zip_add by (rewrite !length_map; exact E).
  rewrite !row_sum_mul. reflexivity.
Qed.

(** C1: with non-negative counts, a state row that is all zero in the
    reindexed counts of one age and not all zero in the pooled counts gives
    an output row that sums to the pool weight [w]; it sums to 1 only when
    [w] is 1.  (The statement holds for every [w], within [0, 1] or not.) *)
Theorem shrink_zero_row_sums_to_weight
    (age_tables : Dict Matrix) (w : Q) (age : Z) (tbl : Matrix) (i : nat) :
  NoDup (map fst age_tables) ->
  (forall kv, In kv age_tables -> nonneg_frame (snd kv)) ->
  In (age, tbl) age_tables ->
  (i < length (all_states_of age_tables))%nat ->
  Forall (fun x => x == 0)
    (nth i (values (reindex tbl (all_states_of age_tables)
                      (all_states_of age_tables) 0)) []) ->
  ~ Forall (fun x => x == 0)
      (nth i (values (pooled_of age_tables (all_states_of age_tables))) []) ->
  exists out_tbl,
    dict_get (shrink_toward_pool age_tables w) age = Some out_tbl /\
    row_sum (nth i (values out_tbl) []) == w /\
    (~ w == 1 -> ~ row_sum (nth i (values out_tbl) []) == 1).
Proof.
  intros Hnd Hnn Hin Hi Hzero Hpool.
  set (S := all_states_of age_tables) in *.
  eexists. split; [apply shrink_toward_pool_get; eassumption|].
  fold S.
  assert (Hsum : row_sum (nth i (values (shrink_one S (row_normalize (pooled_of age_tables S)) w tbl)) []) == w).
  { rewrite shrink_one_row; auto.
    2:{ rewrite row_normalize_values. apply shape_map_rows.
        - apply normalize_row_length.
        - apply pooled_shape. }
    rewrite row_normalize_values.
    pose proof (pooled_shape age_tables S) as Hps.
    rewrite (nth_map_rows _ _ _ [] []) by (destruct Hps; lia).
    rewrite blend_row_sum.
    2:{ rewrite !normalize_row_length.
        rewrite (shape_nth_length _ _ _ _ (reindex_shape S tbl) Hi).
        now rewrite (shape_nth_length _ _ _ _ Hps Hi). }
    rewrite (normalize_row_zero _ (row_sum_all_zero _ Hzero)).
    rewrite <- map_zero_repeat, row_sum_zeros.
    rewrite normalize_row_sum_one; [ring|].
    intros Hs0. apply Hpool. apply nonneg_sum_zero; auto.
    pose proof (pooled_nonneg age_tables S Hnn) as Hp.
    unfold nonneg_frame in Hp. rewrite Forall_forall in Hp. apply Hp.
    apply nth_In. destruct Hps; lia. }
  split; [exact Hsum|].
  intros Hw H1. apply Hw. rewrite <- Hsum. exact H1.
Qed.

Lemma sample_tables_keys : NoDup (map fst sample_tables).
Proof.
  simpl. repeat constructor; simpl; intuition discriminate.
Qed.

Lemma sample_tables_nonneg kv : In kv sample_tables -> nonneg_frame (snd kv).
Proof.
  intros [<- | [<- | []]]; unfold nonneg_frame; simpl;
    repeat constructor; discriminate.
Qed.

Lemma shrink_zero_row_sums_to_weight_witness :
  exists out_tbl,
    dict_get (shrink_toward_pool sample_tables (1 # 4)) 0%Z = Some out_tbl /\
    row_sum (nth 1 (values out_tbl) []) == 1 # 4 /\
    (~ (1 # 4) == 1 -> ~ row_sum (nth 1 (values out_tbl) []) == 1).
Proof.
  apply (shrink_zero_row_sums_to_weight sample_tables (1 # 4) 0%Z sample_age0 1%nat).
  - exact sample_tables_keys.
  - exact sample_tables_nonneg.
  - left. reflexivity.
  - vm_compute. lia.
  - vm_compute. repeat constructor.
  - vm_compute. intros H. inversion H as [|? ? H0 _]. discriminate H0.
Defined.

Lemma shape_same_lengths n m v w :
  shape n m v -> shape n m w -> Forall2 (fun a b => length a = length b) v w.
Proof.
  intros [Hv1 Hv2] [Hw1 Hw2]. subst n.
  revert w Hw1 Hw2. induction Hv2 as [|r v Hr _ IH]; intros [|s w] Hw1 Hw2;
    simpl in *; try discriminate; constructor.
  - inversion Hw2; subst. congruence.
  - inversion Hw2; subst. apply IH; auto.
Qed.

Lemma blend_row_weight_zero p q :
  length p = length q ->
  Forall2 Qeq (zip_with Qplus (map (fun x => (1 - 0) * x) p) (map (fun x => 0 * x) q)) p.
Proof.
  revert q. induction p as [|x p IH]; intros [|y q]; simpl; intros E;
    try discriminate; constructor.
  - ring.
  - apply IH. congruence.
Qed.

Lemma blend_row_weight_one p q :
  length p = length q ->
  Forall2 Qeq (zip_with Qplus (map (fun x => (1 - 1) * x) p) (map (fun x => 1 * x) q)) q.
Proof.
  revert q. induction p as [|x p IH]; intros [|y q]; simpl; intros E;
    try discriminate; constructor.
  - ring.
  - apply IH. congruence.
Qed.

Lemma blend_weight_zero v w :
  Forall2 (fun a b => length a = length b) v w ->
  rows_eq (zip_with (zip_with Qplus) (map (map (fun x => (1 - 0) * x)) v)
                                     (map (map (fun x => 0 * x)) w)) v.
Proof.
  induction 1; simpl; constructor; auto. now apply blend_row_weight_zero.
Qed.

Lemma blend_weight_one v w :
  Forall2 (fun a b => length a = length b) v w ->
  rows_eq (zip_with (zip_with Qplus) (map (map (fun x => (1 - 1) * x)) v)
                                     (map (map (fun x => 1 * x)) w)) w.
Proof.
  induction 1; simpl; constructor; auto. now apply blend_row_weight_one.
Qed.

Lemma shrink_probs_shapes (age_tables : Dict Matrix) (S : list string) (tbl : Matrix) :
  Forall2 (fun a b => length a = length b)
    (values (row_normalize (reindex tbl S S 0)))
    (values (row_normalize (pooled_of age_tables S))).
Proof.
  apply (shape_same_lengths (length S) (length S)); rewrite row_normalize_values;
    apply shape_map_rows; auto using normalize_row_length, reindex_shape, pooled_shape.
Qed.

Lemma shrink_toward_pool_keys (age_tables : Dict Matrix) (w : Q) :
  NoDup (map fst age_tables) ->
  map fst (shrink_toward_pool age_tables w) = map fst age_tables.
Proof.
  intros Hnd. unfold shrink_toward_pool. rewrite fold_dict_set_map by exact Hnd.
  rewrite map_map. reflexivity.
Qed.

(** C7: with pool weight 0 the matrix returned for an age is that age's
    own probability matrix, the row-normalised reindexed counts; with
    pool weight 1 it is the pooled probability matrix, for every age. *)
Theorem shrink_weight_zero_and_one (age_tables : Dict Matrix) (age : Z) (tbl : Matrix) :
  NoDup (map fst age_tables) ->
  In (age, tbl) age_tables ->
  (exists out_tbl,
     dict_get (shrink_toward_pool age_tables 0) age = Some out_tbl /\
     frame_eq out_tbl
       (row_normalize (reindex tbl (all_states_of age_tables)
                         (all_states_of age_tables) 0))) /\
  (exists out_tbl,
     dict_get (shrink_toward_pool age_tables 1) age = Some out_tbl /\
     frame_eq out_tbl
       (row_normalize (pooled_of age_tables (all_states_of age_tables)))).
Proof.
  intros Hnd Hin. split.
  - eexists. split; [apply shrink_toward_pool_get; eassumption|].
    repeat split.
    apply blend_weight_zero, shrink_probs_shapes.
  - eexists. split; [apply shrink_toward_pool_get; eassumption|].
    split; [|split].
    + simpl. symmetry. apply pooled_index.
    + simpl. symmetry. apply pooled_columns.
    + apply blend_weight_one, shrink_probs_shapes.
Qed.

Lemma shrink_weight_zero_and_one_witness :
  (exists out_tbl,
     dict_get (shrink_toward_pool sample_tables 0) 1%Z = Some out_tbl /\
     frame_eq out_tbl
       (row_normalize (reindex sample_age1 (all_states_of sample_tables)
                         (all_states_of sample_tables) 0))) /\
  (exists out_tbl,
     dict_get (shrink_toward_pool sample_tables 1) 1%Z = Some out_tbl /\
     frame_eq out_tbl
       (row_normalize (pooled_of sample_tables (all_states_of sample_tables)))).
Proof.
  apply (shrink_weight_zero_and_one sample_tables 1%Z sample_age1).
  - exact sample_tables_keys.
  - right. left. reflexivity.
Defined.

(** ** Sets and sorting of labels *)

Section CollectionFacts.
Context {A : Type} {LA : Label A} {LOk : LabelOk A}.

Lemma mem_In (x : A) l : mem x l = true <-> In x l.
Proof.
  unfold mem. rewrite existsb_exists. split.
  - intros (y & Hy & E). apply label_eqb_eq in E. now subst.
  - intros Hx. exists x. split; auto. now apply label_eqb_eq.
Qed.

Lemma set_update_In (s xs : list A) x :
  In x (set_update s xs) <-> In x s \/ In x xs.
Proof.
  unfold set_update. revert s. induction xs as [|y xs IH]; intros s; simpl.
  - tauto.
  - rewrite IH. destruct (mem y s) eqn:E.
    + apply mem_In in E. split; [tauto|].
      intros [Hs | [-> | Hxs]]; auto.
    + rewrite in_app_iff; simpl. tauto.
Qed.

Lemma set_update_NoDup (s xs : list A) : NoDup s -> NoDup (set_update s xs).
Proof.
  unfold set_update. revert s. induction xs as [|y xs IH]; intros s Hs; simpl; auto.
  apply IH. destruct (mem y s) eqn:E; auto.
  apply NoDup_app; auto.
  - repeat constructor. intros [].
  - intros x Hx [<- | []]. apply mem_In in Hx. congruence.
Qed.

Lemma insert_sorted_perm (x : A) l : Permutation (x :: l) (insert_sorted x l).
Proof.
  induction l as [|y l IH]; simpl; auto.
  destruct (label_leb x y); auto.
  rewrite perm_swap. now constructor.
Qed.

Lemma sorted_perm (l : list A) : Permutation l (sorted l).
Proof.
  induction l as [|x l IH]; simpl; auto.
  rewrite <- insert_sorted_perm. now constructor.
Qed.

Lemma unique_sorted_In (l : list A) x : In x (unique_sorted l) <-> In x l.
Proof.
  unfold unique_sorted. split.
  - intros Hx.
    apply (Permutation_in _ (Permutation_sym (sorted_perm _))) in Hx.
    apply set_update_In in Hx. destruct Hx as [[] | Hx]; exact Hx.
  - intros Hx. apply (Permutation_in _ (sorted_perm _)).
    apply set_update_In. now right.
Qed.

Lemma unique_sorted_NoDup (l : list A) : NoDup (unique_sorted l).
Proof.
  unfold unique_sorted.
  apply (Permutation_NoDup (sorted_perm _)).
  apply set_update_NoDup. constructor.
Qed.

(** Summing a value over the one position of a key on an axis. *)
Lemma row_sum_indicator (K : list A) (k0 : A) (b : Q) :
  NoDup K -> In k0 K ->
  row_sum (map (fun k => if label_eqb k0 k then b else 0) K) == b.
Proof.
  induction 1 as [|k K Hk Hnd IH]; simpl; intros Hin; [contradiction|].
  destruct (label_eqb k0 k) eqn:E.
  - apply label_eqb_eq in E. subst k.
    assert (Hz : row_sum (map (fun k => if label_eqb k0 k then b else 0) K) == 0).
    { clear -Hk LOk. induction K as [|k K IHK]; simpl; [reflexivity|].
      destruct (label_eqb k0 k) eqn:E.
      - apply label_eqb_eq in E. subst. elim Hk. now left.
      - rewrite IHK; [ring|]. intros Hin. apply Hk. now right. }
    rewrite Hz. ring.
  - destruct Hin as [-> | Hin].
    + assert (label_eqb k0 k0 = true) by now apply label_eqb_eq. congruence.
    + rewrite IH by exact Hin. ring.
Qed.
End CollectionFacts.

Lemma row_sum_map_add {A} (f g : A -> Q) l :
  row_sum (map (fun x => f x + g x) l) == row_sum (map f l) + row_sum (map g l).
Proof.
  induction l as [|x l IH]; simpl; [ring|]. rewrite IH. ring.
Qed.

Lemma row_sum_map_ext {A} (f g : A -> Q) l :
  (forall x, In x l -> f x == g x) -> row_sum (map f l) == row_sum (map g l).
Proof.
  induction l as [|x l IH]; simpl; intros Hfg; [reflexivity|].
  rewrite (Hfg x) by now left. rewrite IH; [reflexivity|].
  intros y Hy. apply Hfg. now right.
Qed.

Lemma row_sum_map_zero {A} (l : list A) : row_sum (map (fun _ => 0) l) == 0.
Proof. apply row_sum_zeros. Qed.

(** ** Vintage pivot *)

Section GroupSums.
Context {I C R : Type} {LI : Label I} {LC : Label C}
        {OkI : LabelOk I} {OkC : LabelOk C}.
Variable key : R -> I * C.
Variable bal : R -> Q.

Lemma group_sum_cons r rs k :
  group_sum key bal (r :: rs) k
  == (if label_eqb (key r) k then bal r else 0) + group_sum key bal rs k.
Proof.
  unfold group_sum. cbn [filter].
  destruct (label_eqb (key r) k); cbn [map]; rewrite ?row_sum_cons; ring.
Qed.

Lemma group_sum_absent rs k : ~ In k (map key rs) -> group_sum key bal rs k == 0.
Proof.
  induction rs as [|r rs IH]; simpl; intros Hk; [reflexivity|].
  rewrite group_sum_cons.
  destruct (label_eqb (key r) k) eqn:E.
  - apply label_eqb_eq in E. elim Hk. now left.
  - rewrite IH; [ring|]. intros Hin. apply Hk. now right.
Qed.

Lemma indicator_grid (idx : list I) (cols : list C) (k : I * C) (b : Q) :
  NoDup idx -> NoDup cols -> In (fst k) idx -> In (snd k) cols ->
  row_sum (map (fun va =>
             row_sum (map (fun s => if label_eqb k (va, s) then b else 0) cols)) idx)
  == b.
Proof.
  intros Hidx Hcols Hi Hc.
  rewrite (row_sum_map_ext _ (fun va => if label_eqb (fst k) va then b else 0)).
  - now apply row_sum_indicator.
  - intros va _. simpl. destruct (label_eqb (fst k) va); simpl.
    + now apply row_sum_indicator.
    + apply row_sum_map_zero.
Qed.

(** Every row falls in exactly one cell of the grid of keys. *)
Lemma grid_sum_conserved (idx : list I) (cols : list C) (rs : list R) :
  NoDup idx -> NoDup cols ->
  (forall r, In r rs -> In (fst (key r)) idx /\ In (snd (key r)) cols) ->
  row_sum (map (fun va => row_sum (map (fun s => group_sum key bal rs (va, s)) cols)) idx)
  == row_sum (map bal rs).
Proof.
  intros Hidx Hcols. induction rs as [|r rs IH]; intros Hin.
  - simpl. rewrite (row_sum_map_ext _ (fun _ => 0)).
    + apply row_sum_map_zero.
    + intros va _. apply row_sum_map_zero.
  - rewrite (row_sum_map_ext _
               (fun va =>
                  row_sum (map (fun s => if label_eqb (key r) (va, s)
                                         then bal r else 0) cols)
                  + row_sum (map (fun s => group_sum key bal rs (va, s)) cols))).
    + rewrite row_sum_map_add, IH.
      * destruct (Hin r (or_introl eq_refl)) as [Hi Hc].
        rewrite indicator_grid by assumption. reflexivity.
      * intros r' Hr'. apply Hin. now right.
    + intros va _. rewrite <- row_sum_map_add.
      apply row_sum_map_ext. intros s _. apply group_sum_cons.
Qed.
End GroupSums.

Section Grouped.
Context {K : Type} {LK : Label K} {OkK : LabelOk K}.
Variable g : K -> Q.

Lemma filter_grouped_absent (Ks : list K) (k0 : K) :
  ~ In k0 Ks ->
  filter (fun kq => label_eqb (fst kq) k0) (map (fun k => (k, g k)) Ks) = [].
Proof.
  induction Ks as [|k Ks IH]; simpl; intros Hk; [reflexivity|].
  destruct (label_eqb k k0) eqn:E.
  - apply label_eqb_eq in E. elim Hk. now left.
  - apply IH. intros Hin. apply Hk. now right.
Qed.

Lemma filter_grouped_present (Ks : list K) (k0 : K) :
  NoDup Ks -> In k0 Ks ->
  filter (fun kq => label_eqb (fst kq) k0) (map (fun k => (k, g k)) Ks)
  = [(k0, g k0)].
Proof.
  induction 1 as [|k Ks Hk Hnd IH]; simpl; intros Hin; [contradiction|].
  destruct (label_eqb k k0) eqn:E.
  - apply label_eqb_eq in E. subst k.
    now rewrite filter_grouped_absent.
  - destruct Hin as [-> | Hin].
    + assert (label_eqb k0 k0 = true) by now apply label_eqb_eq. congruence.
    + now apply IH.
Qed.
End Grouped.

Lemma mean_singleton (x : Q) : mean [x] == x.
Proof. unfold mean; simpl. field. Qed.

(** A cell of the pivot holds the sum of the balances under its key. *)
Lemma pivot_cell_group_sum (rows : list (LoanRow * Z)) va s :
  pivot_cell (groupby_sum rows) 0 va s
  == group_sum pivot_key (fun ra => balance (fst ra)) rows (va, s).
Proof.
  unfold pivot_cell, groupby_sum.
  destruct (mem (va, s) (unique_sorted (map pivot_key rows))) eqn:E.
  - apply mem_In in E.
    rewrite filter_grouped_present;
      [apply mean_singleton | apply unique_sorted_NoDup | exact E].
  - assert (Hn : ~ In (va, s) (unique_sorted (map pivot_key rows))).
    { intros Hin. apply mem_In in Hin. congruence. }
    rewrite filter_grouped_absent by exact Hn.
    symmetry. apply group_sum_absent.
    intros Hin. apply Hn. now apply unique_sorted_In.
Qed.

Lemma pivot_total (rows : list (LoanRow * Z)) :
  total (pivot_table (groupby_sum rows) 0)
  == row_sum (map (fun ra => balance (fst ra)) rows).
Proof.
  unfold total, pivot_table. cbn [values]. rewrite map_map.
  set (idx := unique_sorted (map (fun kq => fst (fst kq)) (groupby_sum rows))).
  set (cols := unique_sorted (map (fun kq => snd (fst kq)) (groupby_sum rows))).
  rewrite (row_sum_map_ext _
             (fun va => row_sum (map (fun s =>
                group_sum pivot_key (fun ra => balance (fst ra)) rows (va, s)) cols))).
  - apply grid_sum_conserved; try apply unique_sorted_NoDup.
    intros r Hr.
    assert (Hk : In (pivot_key r, group_sum pivot_key (fun ra => balance (fst ra))
                                    rows (pivot_key r)) (groupby_sum rows)).
    { unfold groupby_sum.
      apply (in_map (fun k => (k, group_sum pivot_key _ rows k))).
      apply unique_sorted_In. now apply in_map. }
    split; apply unique_sorted_In.
    + apply (in_map (fun kq => fst (fst kq))) in Hk. exact Hk.
    + apply (in_map (fun kq => snd (fst kq))) in Hk. exact Hk.
  - intros va _. apply row_sum_map_ext. intros s _.
    apply pivot_cell_group_sum.
Qed.

(** On a table in which no value is missing, the cells of the pivot add
    up to the sum of the balances of all the input rows. *)
Lemma build_vintage_pivot_conserves_balance (df : LoanFrame) :
  total (build_vintage_pivot df) == row_sum (map balance (loan_rows df)).
Proof.
  unfold build_vintage_pivot.
  destruct df as [rows | rows]; cbn [has_age_col]; rewrite pivot_total.
  - cbn [compute_age_months aged_rows loan_rows]. rewrite map_map. reflexivity.
  - cbn [aged_rows loan_rows]. rewrite map_map. reflexivity.
Qed.

(** ** Age in months *)

Lemma age_of_formula (r : LoanRow) :
  age_of r
  = (12 * (year (observation_date r) - year (origination_date r))
     + (month (observation_date r) - month (origination_date r)))%Z.
Proof. unfold age_of, to_period_M. lia. Qed.

(** C5, as amended: every record is kept as it is and receives as age
    the difference between the calendar months of its observation and of
    its origination, each timestamp cut to its month; the day and the time
    of day play no part.  The age is negative exactly when the observation
    falls in an earlier calendar month than the origination, and is 0 when
    both fall in the same month, whichever comes first. *)
Theorem compute_age_months_spec (df : LoanFrame) :
  exists aged,
    compute_age_months df = Aged aged /\
    map fst aged = loan_rows df /\
    forall r a, In (r, a) aged ->
      a = (12 * (year (observation_date r) - year (origination_date r))
           + (month (observation_date r) - month (origination_date r)))%Z /\
      ((a < 0)%Z <->
       (to_period_M (observation_date r) < to_period_M (origination_date r))%Z) /\
      (to_period_M (observation_date r) = to_period_M (origination_date r) ->
       a = 0%Z).
Proof.
  exists (map (fun r => (r, age_of r)) (loan_rows df)). split; [reflexivity|]. split.
  - rewrite map_map. simpl. apply map_id.
  - intros r a Hin. apply in_map_iff in Hin. destruct Hin as (r' & E & _).
    inversion E; subst. split; [apply age_of_formula|].
    unfold age_of. split; [lia|]. intros ->. lia.
Qed.

Lemma compute_age_months_spec_witness :
  exists a,
    compute_age_months (Raw [earlier_month_observation])
    = Aged [(earlier_month_observation, a)] /\ a = (-2)%Z /\ (a < 0)%Z.
Proof.
  destruct (compute_age_months_spec (Raw [earlier_month_observation]))
    as (aged & Ha & _ & Hr).
  exists (-2)%Z. split; [reflexivity|].
  assert (Hin : In (earlier_month_observation, (-2)%Z) aged).
  { injection Ha as <-. left. reflexivity. }
  destruct (Hr _ _ Hin) as (_ & Hneg & _).
  split; [reflexivity|]. apply Hneg. vm_compute. reflexivity.
Defined.

(** C5, counterexample: origination on 20 January 2020 and observation on
    10 January 2020.  The observation precedes the origination, and the age
    is 0, not a negative age. *)
Lemma observation_before_origination_same_month :
  exists a,
    Timestamp_ltb (observation_date early_observation)
                  (origination_date early_observation) = true /\
    compute_age_months (Raw [early_observation]) = Aged [(early_observation, a)] /\
    ~ (a < 0)%Z.
Proof.
  exists 0%Z. split; [reflexivity|]. split; [reflexivity|]. lia.
Qed.

(** One day elapsed across a month end counts as one month of age. *)
Lemma age_across_month_end :
  compute_age_months (Raw [month_end_origination])
  = Aged [(month_end_origination, 1%Z)].
Proof. reflexivity. Qed.

(** ** Empirical transitions *)





Lemma insert_by_key_count (P : string * Z * string -> bool) x l :
  length (filter P (insert_by_key x l)) = length (filter P (x :: l)).
Proof.
  induction l as [|y l IH]; cbn [insert_by_key]; auto.
  destruct (label_leb (fst x) (fst y)); auto.
  cbn [filter] in *. destruct (P y), (P x); cbn [length] in *; lia.
Qed.

Lemma select_sorted_count (P : string * Z * string -> bool) rows :
  length (filter P (select_sorted rows))
  = length (filter (fun ra => P (loan_id (fst ra), snd ra, delinquency_bucket (fst ra)))
                   rows).
Proof.
  unfold select_sorted. induction rows as [|ra rows IH]; [reflexivity|].
  cbn [map fold_right]. rewrite insert_by_key_count. cbn [filter].
  destruct (P _); cbn [length]; now rewrite IH.
Qed.

(** The join is a product: under one key it holds every left row with
    every right row. *)
Lemma join_inner_count (e : string) (a : Z) (df_next : list NextRow) df_curr :
  joined_at (join_inner df_curr df_next) e a
  = (length (filter (fun c => String.eqb (c_id c) e && Z.eqb (c_age c) a) df_curr)
     * length (filter (fun n => String.eqb (n_id n) e && Z.eqb (n_age n) a) df_next))%nat.
Proof.
  unfold joined_at, join_inner.
  induction df_curr as [|c l IH]; [reflexivity|].
  cbn [flat_map]. rewrite filter_app, length_app, IH. cbn [filter].
  rewrite filter_map_swap, length_map. cbn [j_id j_age].
  destruct (String.eqb (c_id c) e && Z.eqb (c_age c) a) eqn:E.
  - apply andb_true_iff in E. destruct E as (Hid & Hage).
    apply String.eqb_eq in Hid. apply Z.eqb_eq in Hage.
    rewrite forallb_filter_id by (apply forallb_forall; reflexivity).
    cbn [length]. rewrite Hid, Hage.
    rewrite (filter_ext (fun n => label_eqb (n_id n, n_age n) (e, a))
                        (fun n => String.eqb (n_id n) e && Z.eqb (n_age n) a))
      by reflexivity.
    lia.
  - assert (Hnil : forall (l0 : list NextRow), filter (fun _ => false) l0 = []).
    { induction l0; simpl; auto. }
    rewrite Hnil. simpl. lia.
Qed.

(** Pairs counted by the join for one entity: with [m] records at age
    [a] and [n] records at age [a + 1], the join holds [n * m] rows, all of
    them under age [a + 1]. *)
Lemma joined_pairs_count (rows : list (LoanRow * Z)) (e : string) (a : Z) :
  joined_at (joined_of rows) e (a + 1)
  = (records_at rows e (a + 1) * records_at rows e a)%nat.
Proof.
  unfold joined_of. rewrite join_inner_count. unfold records_at. f_equal.
  - rewrite filter_map_swap, length_map. cbn [c_id c_age].
    now rewrite (select_sorted_count
                   (fun x => String.eqb (fst (fst x)) e && Z.eqb (snd (fst x)) (a + 1))).
  - rewrite filter_map_swap, length_map. cbn [n_id n_age].
    rewrite filter_map_swap, length_map. cbn [c_id c_next_age].
    rewrite (select_sorted_count
               (fun x => String.eqb (fst (fst x)) e && Z.eqb (snd (fst x) + 1) (a + 1))).
    cbn [fst snd]. f_equal. apply filter_ext. intros ra. f_equal.
    destruct (Z.eqb_spec (snd ra + 1) (a + 1)), (Z.eqb_spec (snd ra) a); auto; lia.
Qed.






(** C3: on entity X, with ages 0, 1, 2 and states A, B, C, the code
    returns a matrix under age 1 with row B and column A, and a matrix
    under age 2 with row C and column B; it returns nothing under age 0.
    Entity Y, with ages 0 and 2, gives no transition. *)
Theorem transitions_entity_X :
  compute_empirical_transitions entity_X
  = [(1%Z, mkFrame ["B"]%string ["A"]%string [[1]]);
     (2%Z, mkFrame ["C"]%string ["B"]%string [[1]])] /\
  dict_get (compute_empirical_transitions entity_X) 0%Z = None /\
  compute_empirical_transitions entity_Y = [].
Proof. repeat split; vm_compute; reflexivity. Qed.

(** C9: with two records of X at age 0 and three at age 1, the six pairs
    are counted under age 1, in the cell of row B and column A; the result
    has no matrix under age 0. *)
Theorem transitions_entity_X_repeated :
  compute_empirical_transitions entity_X_repeated
  = [(1%Z, mkFrame ["B"]%string ["A"]%string [[6]])] /\
  dict_get (compute_empirical_transitions entity_X_repeated) 0%Z = None.
Proof. split; vm_compute; reflexivity. Qed.

(** * The store *)

Module StoreFacts.
Import Store.

Section Heap.
Context {I C : Type}.
Implicit Types (h n : heap I C) (o : Obj I C) (r : ref).

Lemma lookup_lt h r o : lookup h r = Some o -> (r < length h)%nat.
Proof.
  induction h as [|o' h IH]; simpl; [discriminate|].
  destruct (Nat.eqb_spec r (length h)); [lia|]. intros E. apply IH in E. lia.
Qed.

Lemma lookup_ge h r : (length h <= r)%nat -> lookup h r = None.
Proof.
  intros Hr. destruct (lookup h r) eqn:E; [|reflexivity].
  apply lookup_lt in E. lia.
Qed.

Lemma lookup_app_old n h r : (r < length h)%nat -> lookup (n ++ h) r = lookup h r.
Proof.
  intros Hr. induction n as [|o n IH]; simpl; [reflexivity|].
  rewrite length_app. destruct (Nat.eqb_spec r (length n + length h)); [lia|].
  exact IH.
Qed.

Lemma lookup_grow n h r o : lookup h r = Some o -> lookup (n ++ h) r = Some o.
Proof.
  intros E. rewrite lookup_app_old; [exact E|]. now apply lookup_lt in E.
Qed.

Lemma lookup_cons_grow h x r o : lookup h r = Some o -> lookup (x :: h) r = Some o.
Proof. apply (lookup_grow [x]). Qed.

Lemma lookup_top h o : lookup (o :: h) (length h) = Some o.
Proof. simpl. now rewrite Nat.eqb_refl. Qed.

Lemma lookup_top_of h h' o : length h' = length h -> lookup (o :: h) (length h') = Some o.
Proof. intros ->. apply lookup_top. Qed.

Lemma lookup_at n h o : lookup (n ++ o :: h) (length h) = Some o.
Proof. rewrite lookup_app_old by (simpl; lia). apply lookup_top. Qed.

Lemma update_top h o o' : update (o :: h) (length h) o' = Some (o' :: h).
Proof. simpl. now rewrite Nat.eqb_refl. Qed.

Lemma update_at n h o o' : update (n ++ o :: h) (length h) o' = Some (n ++ o' :: h).
Proof.
  induction n as [|x n IH]; simpl.
  - now rewrite Nat.eqb_refl.
  - rewrite length_app; simpl.
    destruct (Nat.eqb_spec (length h) (length n + S (length h))); [lia|].
    now rewrite IH.
Qed.

(** Overwriting one object leaves the others as they are. *)
Lemma lookup_other n h o o' r :
  r <> length h -> lookup (n ++ o :: h) r = lookup (n ++ o' :: h) r.
Proof.
  intros Hr. induction n as [|x n IH]; simpl.
  - destruct (Nat.eqb_spec r (length h)); [contradiction|reflexivity].
  - rewrite !length_app; simpl. destruct (Nat.eqb _ _); [reflexivity|exact IH].
Qed.

Lemma preserves_app n h : preserves h (n ++ h).
Proof. intros x o. apply lookup_grow. Qed.

Lemma fresh_ge h r : (length h <= r)%nat -> fresh h r.
Proof. apply lookup_ge. Qed.

(** ** Rules for running a computation *)

Lemma returns_ret {A} h (a : A) Q : Q a h -> returns h (ret a) Q.
Proof. intros HQ. exists a, h. auto. Qed.

Lemma returns_bind {A B} h (m : M I C A) (k : A -> M I C B) Q :
  returns h m (fun a h' => returns h' (k a) Q) -> returns h (bind m k) Q.
Proof.
  intros (a & h' & Hm & b & h'' & Hk & HQ). exists b, h''. split; [|exact HQ].
  unfold bind. now rewrite Hm.
Qed.

Lemma returns_conseq {A} h (m : M I C A) (Q Q' : A -> heap I C -> Prop) :
  returns h m Q -> (forall a h', Q a h' -> Q' a h') -> returns h m Q'.
Proof. intros (a & h' & Hm & HQ) Himp. exists a, h'. auto. Qed.

Lemma returns_alloc h o Q : Q (length h) (o :: h) -> returns h (alloc o) Q.
Proof. intros HQ. exists (length h), (o :: h). auto. Qed.

Lemma returns_get h r o Q : lookup h r = Some o -> Q o h -> returns h (get r) Q.
Proof. intros E HQ. exists o, h. split; [|exact HQ]. unfold get. now rewrite E. Qed.

Lemma returns_put h h' r o Q :
  update h r o = Some h' -> Q tt h' -> returns h (put r o) Q.
Proof. intros E HQ. exists tt, h'. split; [|exact HQ]. unfold put. now rewrite E. Qed.

Lemma returns_copy h r o Q :
  lookup h r = Some o -> Q (length h) (o :: h) -> returns h (copy r) Q.
Proof.
  intros E HQ. apply returns_bind. eapply returns_get; [exact E|].
  now apply returns_alloc.
Qed.

Lemma returns_get_loans h r t Q :
  lookup h r = Some (OLoans t) -> Q t h -> returns h (get_loans r) Q.
Proof.
  intros E HQ. apply returns_bind. eapply returns_get; [exact E|].
  now apply returns_ret.
Qed.

Lemma returns_get_sel h r rows Q :
  lookup h r = Some (OSel rows) -> Q rows h -> returns h (get_sel r) Q.
Proof.
  intros E HQ. apply returns_bind. eapply returns_get; [exact E|].
  now apply returns_ret.
Qed.

Lemma returns_get_curr h r rows Q :
  lookup h r = Some (OCurr rows) -> Q rows h -> returns h (get_curr r) Q.
Proof.
  intros E HQ. apply returns_bind. eapply returns_get; [exact E|].
  now apply returns_ret.
Qed.

Lemma returns_get_frame h r f Q :
  lookup h r = Some (OFrame f) -> Q f h -> returns h (get_frame r) Q.
Proof.
  intros E HQ. apply returns_bind. eapply returns_get; [exact E|].
  now apply returns_ret.
Qed.

Lemma returns_get_pivot h r p Q :
  lookup h r = Some (OPivot p) -> Q p h -> returns h (get_pivot r) Q.
Proof.
  intros E HQ. apply returns_bind. eapply returns_get; [exact E|].
  now apply returns_ret.
Qed.

Lemma returns_get_set h r s Q :
  lookup h r = Some (OSet s) -> Q s h -> returns h (get_set r) Q.
Proof.
  intros E HQ. apply returns_bind. eapply returns_get; [exact E|].
  now apply returns_ret.
Qed.

Lemma returns_get_dict h r d Q :
  lookup h r = Some (ODict d) -> Q d h -> returns h (get_dict r) Q.
Proof.
  intros E HQ. apply returns_bind. eapply returns_get; [exact E|].
  now apply returns_ret.
Qed.

End Heap.

(** Looking up the newest object, an object named by a hypothesis, or
    one of these under newer objects. *)
Ltac solve_lookup :=
  first
    [ apply lookup_top
    | eassumption
    | apply lookup_cons_grow; solve_lookup
    | apply lookup_grow; solve_lookup ].

(** One step of a computation; a loop or a call of another of the
    functions is left to its own lemma. *)
Ltac run_step :=
  lazymatch goal with
  | |- returns _ (for_each _ _) _ => fail
  | |- returns _ (Stateful.row_normalize _) _ => fail
  | |- returns _ (Stateful.compute_age_months _) _ => fail
  | |- _ => idtac
  end;
  first
    [ apply returns_ret
    | apply returns_alloc
    | eapply returns_copy; [solve_lookup|]
    | eapply returns_get_loans; [solve_lookup|]
    | eapply returns_get_sel; [solve_lookup|]
    | eapply returns_get_curr; [solve_lookup|]
    | eapply returns_get_frame; [solve_lookup|]
    | eapply returns_get_pivot; [solve_lookup|]
    | eapply returns_get_set; [solve_lookup|]
    | eapply returns_get_dict; [solve_lookup|]
    | eapply returns_put;
        [first [apply update_top | apply update_at | apply (update_at (_ :: _))]|]
    | apply returns_bind ].

Section FrameSpecs.
Context {I C : Type}.
Implicit Types (h : heap I C) (r : ref).

Lemma app_cons_assoc (n h : heap I C) (o : Obj I C) : n ++ o :: h = (n ++ [o]) ++ h.
Proof. now rewrite <- app_assoc. Qed.

(** The same in the form used to chain calls: the final store is the
    initial one under new objects. *)
Lemma returns_new_intro h (m : M I C ref) P :
  returns h m (fun r h' =>
    exists new o, h' = new ++ h /\ (length h <= r)%nat /\
                  lookup h' r = Some o /\ P h' o) ->
  returns_new h m P.
Proof.
  intros Hm. eapply returns_conseq; [exact Hm|].
  intros r h' (new & o & -> & Hr & Hl & HP). split; [|split].
  - now apply fresh_ge.
  - apply preserves_app.
  - eauto.
Qed.

Lemma compute_age_months_returns h df t (Q : ref -> heap I C -> Prop) :
  lookup h df = Some (OLoans t) ->
  Q (length h) (OLoans (compute_age_months t) :: h) ->
  returns h (Stateful.compute_age_months df) Q.
Proof.
  intros Hdf HQ. unfold Stateful.compute_age_months.
  repeat run_step. exact HQ.
Qed.

Lemma build_vintage_pivot_returns h df t (Q : ref -> heap I C -> Prop) :
  lookup h df = Some (OLoans t) ->
  (forall new r, (length h <= r)%nat ->
     lookup (new ++ h) r = Some (OPivot (build_vintage_pivot t)) ->
     Q r (new ++ h)) ->
  returns h (Stateful.build_vintage_pivot df) Q.
Proof.
  intros Hdf HQ. unfold Stateful.build_vintage_pivot.
  run_step. run_step. destruct t as [rows | rows]; cbn [has_age_col].
  - run_step. eapply compute_age_months_returns; [exact Hdf|].
    repeat run_step. apply (HQ [_; _]); [simpl; lia | apply lookup_top].
  - repeat run_step. apply (HQ [_]); [lia | apply lookup_top].
Qed.

Lemma row_normalize_returns h df f (Q : ref -> heap I C -> Prop) :
  lookup h df = Some (OFrame f) ->
  (forall new r, (length h <= r)%nat ->
     lookup (new ++ h) r = Some (OFrame (row_normalize f)) ->
     Q r (new ++ h)) ->
  returns h (Stateful.row_normalize df) Q.
Proof.
  intros Hdf HQ. unfold Stateful.row_normalize.
  repeat run_step. apply (HQ [_; _]); [simpl; lia | apply lookup_top].
Qed.

Lemma laplace_smoothing_returns h counts f alpha (Q : ref -> heap I C -> Prop) :
  lookup h counts = Some (OFrame f) ->
  (forall new r, (length h <= r)%nat ->
     lookup (new ++ h) r = Some (OFrame (laplace_smoothing f alpha)) ->
     Q r (new ++ h)) ->
  returns h (Stateful.laplace_smoothing counts alpha) Q.
Proof.
  intros Hdf HQ. unfold Stateful.laplace_smoothing.
  repeat run_step. eapply row_normalize_returns; [apply lookup_top|].
  intros new r Hr Hl. run_step.
  rewrite app_cons_assoc in *. apply HQ; [simpl in Hr; lia | exact Hl].
Qed.

Lemma ensure_probability_matrix_returns h df f (Q : ref -> heap I C -> Prop) :
  lookup h df = Some (OFrame f) ->
  (forall new r, (length h <= r)%nat ->
     lookup (new ++ h) r = Some (OFrame (ensure_probability_matrix f)) ->
     Q r (new ++ h)) ->
  returns h (Stateful.ensure_probability_matrix df) Q.
Proof.
  intros Hdf HQ. unfold Stateful.ensure_probability_matrix.
  repeat run_step. eapply row_normalize_returns; [apply lookup_top|].
  intros new r Hr Hl.
  rewrite app_cons_assoc in *. apply HQ; [simpl in Hr; lia | exact Hl].
Qed.

(** ** Dicts of references *)

Lemma resolve_preserved h h' (d : Dict ref) D :
  (forall x f, lookup h x = Some (OFrame f) -> lookup h' x = Some (OFrame f)) ->
  resolve h d = Some D -> resolve h' d = Some D.
Proof.
  intros Hk. revert D. induction d as [|[k r] d IH]; simpl; intros D HD; [exact HD|].
  destruct (lookup h r) as [[| | |f| | |]|] eqn:E; try discriminate.
  destruct (resolve h d) as [l|]; [|discriminate].
  rewrite (Hk _ _ E), (IH l eq_refl). exact HD.
Qed.

Lemma resolve_dict_set h (d : Dict ref) D k r f :
  resolve h d = Some D -> lookup h r = Some (OFrame f) ->
  resolve h (dict_set d k r) = Some (dict_set D k f).
Proof.
  intros HD Hr. revert D HD. induction d as [|[k' r'] d IH]; simpl; intros D HD.
  - injection HD as <-. simpl. now rewrite Hr.
  - destruct (lookup h r') as [[| | |f'| | |]|] eqn:E; try discriminate.
    destruct (resolve h d) as [l|] eqn:El; [|discriminate].
    injection HD as <-. simpl.
    destruct (Z.eqb k' k); simpl.
    + now rewrite Hr, El.
    + now rewrite E, (IH l eq_refl).
Qed.

Lemma dict_set_refs (P : ref -> Prop) (d : Dict ref) k r :
  Forall (fun kv => P (snd kv)) d -> P r ->
  Forall (fun kv => P (snd kv)) (dict_set d k r).
Proof.
  intros Hd Hr. induction Hd as [|[k' r'] d Hkv Hd IH]; simpl.
  - now repeat constructor.
  - destruct (Z.eqb k' k); constructor; auto.
Qed.

(** Overwriting a dict and allocating keeps every frame of the store. *)
Lemma frames_kept (n n' : heap I C) h (d d' : Dict ref) x f :
  lookup (n ++ ODict d :: h) x = Some (OFrame f) ->
  lookup (n' ++ n ++ ODict d' :: h) x = Some (OFrame f).
Proof.
  intros E. apply lookup_grow.
  rewrite <- (lookup_other n h (ODict d) (ODict d')); [exact E|].
  intros ->. rewrite lookup_at in E. discriminate.
Qed.

End FrameSpecs.

(** ** Empirical transitions over the store *)

Lemma count_groups_returns joined ages :
  forall (n : heap string string) (d : Dict ref) (D : Dict Matrix) h
         (Q : unit -> heap string string -> Prop),
  resolve (n ++ ODict d :: h) d = Some D ->
  Forall (fun kv => (length h <= snd kv)%nat) d ->
  (forall n' d',
     resolve (n' ++ ODict d' :: h) d' = Some (fold_left (count_step joined) ages D) ->
     Forall (fun kv => (length h <= snd kv)%nat) d' ->
     Q tt (n' ++ ODict d' :: h)) ->
  returns (n ++ ODict d :: h)
    (for_each ages (Stateful.count_group joined (length h))) Q.
Proof.
  induction ages as [|age ages IH]; intros n d D h Q HD Hfr HQ; simpl.
  - apply returns_ret. now apply HQ.
  - apply returns_bind. unfold Stateful.count_group.
    apply returns_bind, returns_alloc.
    apply returns_bind. eapply returns_get_dict; [apply (lookup_at (_ :: n))|].
    eapply returns_put; [apply (update_at (_ :: n))|].
    eapply (IH (_ :: n)); [| |exact HQ].
    + apply resolve_dict_set.
      * eapply resolve_preserved; [|exact HD].
        intros x f. apply (frames_kept n [_]).
      * cbn [app]. apply lookup_top_of. now rewrite !length_app.
    + apply dict_set_refs; [exact Hfr|]. rewrite length_app. simpl. lia.
Qed.

Lemma compute_empirical_transitions_returns (h : heap string string) df t
    (Q : ref -> heap string string -> Prop) :
  lookup h df = Some (OLoans t) ->
  (forall new r d, (length h <= r)%nat ->
     lookup (new ++ h) r = Some (ODict d) ->
     resolve (new ++ h) d = Some (compute_empirical_transitions t) ->
     Forall (fun kv => (length h <= snd kv)%nat) d ->
     Q r (new ++ h)) ->
  returns h (Stateful.compute_empirical_transitions df) Q.
Proof.
  intros Hdf HQ. unfold Stateful.compute_empirical_transitions.
  run_step. run_step. destruct t as [rows | rows]; cbn [has_age_col].
  - run_step. eapply compute_age_months_returns; [exact Hdf|].
    repeat run_step.
    eapply (count_groups_returns _ _ []); [reflexivity | constructor |].
    intros n' d' Hres Hfr. run_step.
    change (n' ++ ODict d' :: ?a :: ?b :: h) with (n' ++ [ODict d'; a; b] ++ h).
    rewrite app_assoc. eapply HQ.
    + simpl. lia.
    + rewrite <- app_assoc. apply (lookup_at n').
    + rewrite <- app_assoc. exact Hres.
    + eapply Forall_impl; [|exact Hfr]. simpl. intros kv Hkv. lia.
  - repeat run_step.
    eapply (count_groups_returns _ _ []); [reflexivity | constructor |].
    intros n' d' Hres Hfr. run_step.
    change (n' ++ ODict d' :: ?a :: h) with (n' ++ [ODict d'; a] ++ h).
    rewrite app_assoc. eapply HQ.
    + simpl. lia.
    + rewrite <- app_assoc. apply (lookup_at n').
    + rewrite <- app_assoc. exact Hres.
    + eapply Forall_impl; [|exact Hfr]. simpl. intros kv Hkv. lia.
Qed.

(** ** Shrinkage over the store *)

Lemma resolve_cons_inv {I C} (h : heap I C) k r (d : Dict ref) D :
  resolve h ((k, r) :: d) = Some D ->
  exists f D', D = (k, f) :: D' /\ lookup h r = Some (OFrame f) /\
               resolve h d = Some D'.
Proof.
  simpl. destruct (lookup h r) as [[| | |f| | |]|]; try discriminate.
  destruct (resolve h d) as [l|]; [|discriminate].
  intros E. injection E as <-. eauto.
Qed.

(** The loop that collects the state labels. *)
Lemma states_loop_returns (entries : Dict ref) :
  forall (tables : Dict Matrix) (acc : list string) (h : heap string string)
         (Q : unit -> heap string string -> Prop),
  resolve h entries = Some tables ->
  Q tt (OSet (fold_left
                (fun s kv => set_update (set_update s (index (snd kv)))
                                        (columns (snd kv)))
                tables acc) :: h) ->
  returns (OSet acc :: h)
    (for_each entries (fun kv =>
       tbl <- get_frame (snd kv) ;;
       Stateful.set_update_in (length h) (index tbl) ;;;
       Stateful.set_update_in (length h) (columns tbl))) Q.
Proof.
  induction entries as [|[k r] entries IH]; intros tables acc h Q Hres HQ.
  - injection Hres as <-. apply returns_ret. exact HQ.
  - apply resolve_cons_inv in Hres. destruct Hres as (f & D' & -> & Hr & Hres).
    cbn [for_each snd]. unfold Stateful.set_update_in.
    repeat run_step. eapply IH; [exact Hres | exact HQ].
Qed.

(** The loop that accumulates the pooled counts. *)
Lemma pooled_loop_returns (S : list string) (entries : Dict ref) :
  forall (tables : Dict Matrix) (p : Matrix) (n hb : heap string string)
         (Q : unit -> heap string string -> Prop),
  resolve hb entries = Some tables ->
  (forall n',
     Q tt (n' ++ OFrame (fold_left
                           (fun pooled kv =>
                              frame_add pooled (reindex (snd kv) S S 0))
                           tables p) :: hb)) ->
  returns (n ++ OFrame p :: hb)
    (for_each entries (fun kv =>
       tbl <- get_frame (snd kv) ;;
       tbl2 <- alloc (OFrame (reindex tbl S S 0)) ;;
       p <- get_frame (length hb) ;;
       t2 <- get_frame tbl2 ;;
       put (length hb) (OFrame (frame_add p t2)))) Q.
Proof.
  induction entries as [|[k r] entries IH]; intros tables p n hb Q Hres HQ.
  - injection Hres as <-. apply returns_ret. apply HQ.
  - apply resolve_cons_inv in Hres. destruct Hres as (f & D' & -> & Hr & Hres).
    cbn [for_each snd].
    repeat run_step. eapply (IH _ _ (_ :: n)); [exact Hres | exact HQ].
Qed.

Lemma heap_regroup {I C} (x y : Obj I C) (new n h : heap I C) :
  x :: new ++ y :: n ++ h = (x :: new ++ [y]) ++ n ++ h.
Proof. simpl. now rewrite <- app_assoc. Qed.

(** The loop that blends every age with the pooled matrix. *)
Lemma blend_loop_returns (S : list string) (w : Q) (pp : ref) (PP : Matrix)
    (entries : Dict ref) :
  forall (tables : Dict Matrix) (d : Dict ref) (D : Dict Matrix)
         (n hb : heap string string) (Q : unit -> heap string string -> Prop),
  resolve hb entries = Some tables ->
  lookup hb pp = Some (OFrame PP) ->
  resolve (n ++ ODict d :: hb) d = Some D ->
  Forall (fun kv => (length hb <= snd kv)%nat) d ->
  (forall n' d',
     resolve (n' ++ ODict d' :: hb) d'
     = Some (fold_left
               (fun out kv => dict_set out (fst kv) (shrink_one S PP w (snd kv)))
               tables D) ->
     Forall (fun kv => (length hb <= snd kv)%nat) d' ->
     Q tt (n' ++ ODict d' :: hb)) ->
  returns (n ++ ODict d :: hb)
    (for_each entries (fun kv =>
       tbl <- get_frame (snd kv) ;;
       tbl2 <- alloc (OFrame (reindex tbl S S 0)) ;;
       probs <- Stateful.row_normalize tbl2 ;;
       p <- get_frame probs ;;
       pp <- get_frame pp ;;
       shrunk <- alloc (OFrame (frame_add (frame_scale (1 - w) p)
                                          (frame_scale w pp))) ;;
       d <- get_dict (length hb) ;;
       put (length hb) (ODict (dict_set d (fst kv) shrunk)))) Q.
Proof.
  induction entries as [|[k r] entries IH];
    intros tables d D n hb Q Hres Hpp HD Hfr HQ.
  - injection Hres as <-. apply returns_ret. now apply HQ.
  - apply resolve_cons_inv in Hres. destruct Hres as (f & D' & -> & Hr & Hres).
    cbn [for_each snd fst].
    repeat run_step. eapply row_normalize_returns; [apply lookup_top|].
    intros new probs Hprobs Hl.
    repeat run_step.
    rewrite (heap_regroup _ _ new n (ODict d :: hb)), app_assoc.
    eapply returns_put; [apply update_at|].
    eapply IH; [exact Hres | exact Hpp | | | exact HQ].
    + apply resolve_dict_set.
      * eapply resolve_preserved; [|exact HD].
        intros x g Hx. rewrite <- app_assoc. now apply (frames_kept n _ hb d).
      * rewrite <- app_assoc. cbn [app]. apply lookup_top_of.
        rewrite !length_app. simpl. rewrite !length_app. simpl. lia.
    + apply dict_set_refs; [exact Hfr|].
      rewrite !length_app. simpl. rewrite !length_app. simpl. lia.
Qed.

Lemma resolve_grow {I C} (n h : heap I C) (d : Dict ref) D :
  resolve h d = Some D -> resolve (n ++ h) d = Some D.
Proof. apply resolve_preserved. intros x f. apply lookup_grow. Qed.

Lemma shrink_toward_pool_returns (h : heap string string) a entries tables w
    (Q : ref -> heap string string -> Prop) :
  lookup h a = Some (ODict entries) ->
  resolve h entries = Some tables ->
  (forall new r d, (length h <= r)%nat ->
     lookup (new ++ h) r = Some (ODict d) ->
     resolve (new ++ h) d = Some (shrink_toward_pool tables w) ->
     Forall (fun kv => (length h <= snd kv)%nat) d ->
     Q r (new ++ h)) ->
  returns h (Stateful.shrink_toward_pool a w) Q.
Proof.
  intros Ha Hres HQ. unfold Stateful.shrink_toward_pool.
  repeat run_step.
  eapply states_loop_returns; [exact Hres|].
  repeat run_step.
  eapply (pooled_loop_returns _ _ _ _ []);
    [apply (resolve_grow [_]); exact Hres|].
  intros n2. run_step.
  eapply row_normalize_returns; [apply lookup_at|].
  intros n3 pp Hpp Hlpp.
  repeat run_step.
  eapply (blend_loop_returns _ _ pp _ _ _ [] [] []).
  - apply resolve_grow, resolve_grow, (resolve_grow [_; _]). exact Hres.
  - exact Hlpp.
  - reflexivity.
  - constructor.
  - intros n4 d4 Hres4 Hfr4. run_step.
    match goal with
    | |- Q _ (n4 ++ ?d :: n3 ++ n2 ++ ?p :: ?s :: h) =>
        assert (E : n4 ++ d :: n3 ++ n2 ++ p :: s :: h
                    = (n4 ++ d :: n3 ++ n2 ++ [p; s]) ++ h)
          by (rewrite <- !app_assoc; cbn [app]; rewrite <- !app_assoc; reflexivity)
    end.
    revert Hres4. rewrite E. intros Hres4. eapply HQ.
    + rewrite !length_app. simpl. lia.
    + rewrite <- E. apply lookup_at.
    + exact Hres4.
    + eapply Forall_impl; [|exact Hfr4]. intros kv Hkv.
      rewrite !length_app in Hkv. simpl in Hkv. lia.
Qed.

Lemma all_fresh_of_ge {I C} (h : heap I C) (d : Dict ref) :
  Forall (fun kv => (length h <= snd kv)%nat) d -> all_fresh h d.
Proof.
  intros Hd. eapply Forall_impl; [|exact Hd]. intros kv. apply fresh_ge.
Qed.

Ltac new_result HQ :=
  apply returns_new_intro; eapply HQ; [eassumption..|];
  intros new r Hfresh Hl; exists new; eexists;
  split; [reflexivity|]; split; [exact Hfresh|]; split; [exact Hl|].

(** C10: called on any store, each of the seven public functions returns,
    and returns a reference to an object that did not exist before the
    call, in a store where every object that existed before the call (the
    input table, the input dict and the matrices it holds among them) is
    unchanged.  The new object holds what the function computes from its
    input; the dicts returned by [compute_empirical_transitions] and
    [shrink_toward_pool] hold new matrices only. *)
Theorem public_functions_leave_inputs_unchanged :
  (forall I C (h : heap I C) df t,
     lookup h df = Some (OLoans t) ->
     returns_new h (Stateful.compute_age_months df)
       (fun _ o => o = OLoans (compute_age_months t))) /\
  (forall I C (h : heap I C) df t,
     lookup h df = Some (OLoans t) ->
     returns_new h (Stateful.build_vintage_pivot df)
       (fun _ o => o = OPivot (build_vintage_pivot t))) /\
  (forall (h : heap string string) df t,
     lookup h df = Some (OLoans t) ->
     returns_new h (Stateful.compute_empirical_transitions df)
       (fun h' o => exists d, o = ODict d /\ all_fresh h d /\
          resolve h' d = Some (compute_empirical_transitions t))) /\
  (forall I C (h : heap I C) df f,
     lookup h df = Some (OFrame f) ->
     returns_new h (Stateful.row_normalize df)
       (fun _ o => o = OFrame (row_normalize f))) /\
  (forall I C (h : heap I C) counts f alpha,
     lookup h counts = Some (OFrame f) ->
     returns_new h (Stateful.laplace_smoothing counts alpha)
       (fun _ o => o = OFrame (laplace_smoothing f alpha))) /\
  (forall (h : heap string string) age_tables entries tables pool_weight,
     lookup h age_tables = Some (ODict entries) ->
     resolve h entries = Some tables ->
     returns_new h (Stateful.shrink_toward_pool age_tables pool_weight)
       (fun h' o => exists d, o = ODict d /\ all_fresh h d /\
          resolve h' d = Some (shrink_toward_pool tables pool_weight))) /\
  (forall I C (h : heap I C) df f,
     lookup h df = Some (OFrame f) ->
     returns_new h (Stateful.ensure_probability_matrix df)
       (fun _ o => o = OFrame (ensure_probability_matrix f))).
Proof.
  repeat split.
  - intros I C h df t Hdf. apply returns_new_intro.
    eapply compute_age_months_returns; [exact Hdf|].
    exists [OLoans (compute_age_months t)]. eexists.
    split; [reflexivity|]. split; [lia|]. split; [apply lookup_top|reflexivity].
  - intros I C h df t Hdf. new_result @build_vintage_pivot_returns. reflexivity.
  - intros h df t Hdf. apply returns_new_intro.
    eapply compute_empirical_transitions_returns; [exact Hdf|].
    intros new r d Hfresh Hl Hres Hfr. exists new. eexists.
    split; [reflexivity|]. split; [exact Hfresh|]. split; [exact Hl|].
    exists d. split; [reflexivity|]. split; [now apply all_fresh_of_ge | exact Hres].
  - intros I C h df f Hdf. new_result @row_normalize_returns. reflexivity.
  - intros I C h df f alpha Hdf. new_result @laplace_smoothing_returns. reflexivity.
  - intros h a entries tables w Ha Hres. apply returns_new_intro.
    eapply shrink_toward_pool_returns; [exact Ha | exact Hres |].
    intros new r d Hfresh Hl Hres' Hfr. exists new. eexists.
    split; [reflexivity|]. split; [exact Hfresh|]. split; [exact Hl|].
    exists d. split; [reflexivity|]. split; [now apply all_fresh_of_ge | exact Hres'].
  - intros I C h df f Hdf. new_result @ensure_probability_matrix_returns. reflexivity.
Qed.

Lemma public_functions_leave_inputs_unchanged_witness :
  returns_new sample_store (Stateful.compute_age_months 0%nat)
    (fun _ o => o = OLoans (compute_age_months entity_X)) /\
  returns_new sample_store (Stateful.build_vintage_pivot 0%nat)
    (fun _ o => o = OPivot (build_vintage_pivot entity_X)) /\
  returns_new sample_store (Stateful.compute_empirical_transitions 0%nat)
    (fun h' o => exists d, o = ODict d /\ all_fresh sample_store d /\
       resolve h' d = Some (compute_empirical_transitions entity_X)) /\
  returns_new sample_store (Stateful.row_normalize 1%nat)
    (fun _ o => o = OFrame (row_normalize sample_age0)) /\
  returns_new sample_store (Stateful.laplace_smoothing 1%nat 1)
    (fun _ o => o = OFrame (laplace_smoothing sample_age0 1)) /\
  returns_new sample_store (Stateful.shrink_toward_pool 3%nat (1 # 2))
    (fun h' o => exists d, o = ODict d /\ all_fresh sample_store d /\
       resolve h' d = Some (shrink_toward_pool sample_tables (1 # 2))) /\
  returns_new sample_store (Stateful.ensure_probability_matrix 2%nat)
    (fun _ o => o = OFrame (ensure_probability_matrix sample_age1)).
Proof.
  destruct public_functions_leave_inputs_unchanged
    as (H1 & H2 & H3 & H4 & H5 & H6 & H7).
  split; [apply H1; reflexivity|].
  split; [apply H2; reflexivity|].
  split; [apply H3; reflexivity|].
  split; [apply H4; reflexivity|].
  split; [apply H5; reflexivity|].
  split; [apply (H6 sample_store 3%nat [(0%Z, 1%nat); (1%Z, 2%nat)]); reflexivity|].
  apply H7; reflexivity.
Defined.

End StoreFacts.

(** * Further properties of the functions *)

(** ** Row normalisation *)

Lemma Forall2_Qeq_sym (a b : list Q) : Forall2 Qeq a b -> Forall2 Qeq b a.
Proof. induction 1; constructor; auto. now symmetry. Qed.

Lemma Forall2_Qeq_trans (a b c : list Q) :
  Forall2 Qeq a b -> Forall2 Qeq b c -> Forall2 Qeq a c.
Proof.
  intros Hab. revert c. induction Hab as [|x y a b Hxy _ IH]; intros c Hbc;
    inversion Hbc; subst; constructor.
  - now rewrite Hxy.
  - now apply IH.
Qed.

Lemma normalize_row_nonneg_cells r :
  Forall (fun x => 0 <= x) r -> Forall (fun x => 0 <= x /\ x <= 1) (normalize_row r).
Proof.
  intros Hr. pose proof (row_sum_nonneg r Hr) as Hs.
  unfold normalize_row. destruct (Qeq_bool (row_sum r) 0) eqn:E.
  - apply Forall_map, Forall_forall. intros x _. split; [apply Qle_refl | discriminate].
  - apply Qeq_bool_neq in E.
    assert (Hpos : 0 < row_sum r).
    { apply Qle_lteq in Hs. destruct Hs as [Hs | Hs]; [exact Hs|]. elim E. now symmetry. }
    assert (Hle : Forall (fun x => 0 <= x /\ x <= row_sum r) r).
    { clear E Hpos Hs. induction Hr as [|x r Hx Hr IH]; constructor.
      - pose proof (row_sum_nonneg r Hr). simpl. split; [exact Hx|]. cbv beta in Hx. lra.
      - eapply Forall_impl; [|exact IH]. simpl. intros y [Hy0 Hy]. split; [exact Hy0|].
        cbv beta in Hx. lra. }
    apply Forall_map. eapply Forall_impl; [|exact Hle].
    intros x [Hx0 Hx]. simpl. split.
    + apply Qle_shift_div_l; [exact Hpos|]. lra.
    + apply Qle_shift_div_r; [exact Hpos|]. lra.
Qed.

Lemma normalized_cells_in_unit_interval {I C} (df : DataFrame I C) :
  nonneg_frame df ->
  Forall (Forall (fun x => 0 <= x /\ x <= 1)) (values (row_normalize df)).
Proof.
  intros Hnn. rewrite row_normalize_values. apply Forall_map.
  eapply Forall_impl; [|exact Hnn]. intros r. apply normalize_row_nonneg_cells.
Qed.

(** X1: on a frame of non-negative cells, [row_normalize] returns cells
    between 0 and 1. *)
Theorem row_normalize_cells_in_unit_interval {I C} (df : DataFrame I C) :
  nonneg_frame df ->
  Forall (Forall (fun x => 0 <= x /\ x <= 1)) (values (row_normalize df)).
Proof.
  intros Hnn. rewrite row_normalize_values. apply Forall_map.
  eapply Forall_impl; [|exact Hnn]. intros r. apply normalize_row_nonneg_cells.
Qed.

Lemma row_normalize_cells_in_unit_interval_witness :
  Forall (Forall (fun x => 0 <= x /\ x <= 1)) (values (row_normalize sample_age0)).
Proof.
  apply row_normalize_cells_in_unit_interval.
  unfold nonneg_frame; simpl. repeat constructor; discriminate.
Defined.

Lemma scaled_div_Forall2 (k s t : Q) r :
  ~ k == 0 -> ~ s == 0 -> t == k * s ->
  Forall2 Qeq (map (fun x => k * x / t) r) (map (fun x => x / s) r).
Proof.
  intros Hk Hs Ht. induction r as [|x r IH]; simpl; constructor; auto.
  rewrite Ht. field. split; assumption.
Qed.

Lemma normalize_row_scale (k : Q) r :
  ~ k == 0 ->
  Forall2 Qeq (normalize_row (map (fun x => k * x) r)) (normalize_row r).
Proof.
  intros Hk. pose proof (row_sum_mul k r) as Hs.
  unfold normalize_row.
  destruct (Qeq_bool (row_sum (map (fun x => k * x) r)) 0) eqn:Ea,
           (Qeq_bool (row_sum r) 0) eqn:Eb.
  - rewrite map_map. apply Forall2_Qeq_refl.
  - apply Qeq_bool_iff in Ea. apply Qeq_bool_neq in Eb. rewrite Hs in Ea.
    apply Qmult_integral in Ea. tauto.
  - apply Qeq_bool_iff in Eb. apply Qeq_bool_neq in Ea. rewrite Hs, Eb in Ea.
    elim Ea. ring.
  - apply Qeq_bool_neq in Eb. rewrite map_map.
    now apply scaled_div_Forall2.
Qed.

(** X2: on a frame of non-negative cells, multiplying every cell by one
    positive factor does not change what [row_normalize] returns.  (Rows
    of mixed sign are left out: there the sum can cancel, and the float64
    code then departs from exact arithmetic by more than rounding.) *)
Theorem row_normalize_scale_invariant {I C} (k : Q) (df : DataFrame I C) :
  0 < k -> nonneg_frame df ->
  frame_eq (row_normalize (frame_scale k df)) (row_normalize df).
Proof.
  intros Hk0 _. assert (Hk : ~ k == 0) by lra. repeat split.
  change (rows_eq (values (row_normalize (frame_scale k df)))
                  (values (row_normalize df))).
  rewrite !row_normalize_values. cbn [frame_scale values]. rewrite map_map.
  induction (values df) as [|r v IH]; simpl; constructor; auto.
  now apply normalize_row_scale.
Qed.

Lemma row_normalize_scale_invariant_witness :
  frame_eq (row_normalize (frame_scale 3 sample_age0)) (row_normalize sample_age0).
Proof.
  apply row_normalize_scale_invariant; [reflexivity|].
  unfold nonneg_frame; simpl. repeat constructor; discriminate.
Defined.

Lemma normalize_row_twice r :
  Forall2 Qeq (normalize_row (normalize_row r)) (normalize_row r).
Proof.
  apply normalize_row_fixed.
  destruct (Qeq_bool (row_sum r) 0) eqn:E.
  - right. apply Qeq_bool_iff in E. rewrite (normalize_row_zero r E).
    clear. induction (length r); simpl; constructor; auto. reflexivity.
  - left. apply normalize_row_sum_one. now apply Qeq_bool_neq.
Qed.

(** X3: on a frame of non-negative cells, normalising twice gives what
    normalising once gives.  (Rows of mixed sign are left out, as for the
    scaling law.) *)
Theorem row_normalize_twice {I C} (df : DataFrame I C) :
  nonneg_frame df ->
  frame_eq (row_normalize (row_normalize df)) (row_normalize df).
Proof.
  intros _. repeat split.
  change (rows_eq (values (row_normalize (row_normalize df)))
                  (values (row_normalize df))).
  rewrite !row_normalize_values, map_map.
  induction (values df) as [|r v IH]; simpl; constructor; auto.
  apply normalize_row_twice.
Qed.

Lemma row_normalize_twice_witness :
  frame_eq (row_normalize (row_normalize sample_age0)) (row_normalize sample_age0).
Proof.
  apply row_normalize_twice.
  unfold nonneg_frame; simpl. repeat constructor; discriminate.
Defined.

(** ** Laplace smoothing *)

Lemma row_sum_add_scalar (a : Q) r :
  row_sum (map (fun x => x + a) r) == row_sum r + inject_Z (Z.of_nat (length r)) * a.
Proof.
  induction r as [|x r IH]; [simpl; ring|].
  cbn [map length]. rewrite !row_sum_cons, IH, Nat2Z.inj_succ.
  unfold Z.succ. rewrite inject_Z_plus. ring.
Qed.

Lemma inject_nat_pos (n : nat) : (0 < n)%nat -> 0 < inject_Z (Z.of_nat n).
Proof.
  intros Hn. change 0 with (inject_Z 0). rewrite <- Zlt_Qlt. lia.
Qed.

(** X4: with a positive [alpha], non-negative counts that stay within
    the 64-bit integers once [alpha] is added, and at least one column,
    every cell [x] of a row of sum [s] over [n] columns becomes
    [(x + alpha) / (s + n * alpha)]: the row is strictly positive and sums
    to 1, so smoothing leaves no zero row.  (Beyond the bound the integer
    addition [counts + alpha] of the code wraps around.) *)
Theorem laplace_smoothing_formula {I C} (counts : DataFrame I C) (alpha : Q)
    (i : nat) (r : list Q) :
  0 < alpha ->
  nth_error (values counts) i = Some r ->
  Forall (fun x => 0 <= x) r ->
  Forall (fun x => x + alpha <= int64_max) r ->
  r <> [] ->
  exists r',
    nth_error (values (laplace_smoothing counts alpha)) i = Some r' /\
    r' = map (fun x => (x + alpha)
                       / row_sum (map (fun x => x + alpha) r)) r /\
    row_sum (map (fun x => x + alpha) r)
      == row_sum r + inject_Z (Z.of_nat (length r)) * alpha /\
    Forall (fun x => 0 < x) r' /\
    row_sum r' == 1.
Proof.
  intros Ha Hr Hnn _ Hne.
  assert (Hpos : 0 < row_sum (map (fun x => x + alpha) r)).
  { rewrite row_sum_add_scalar. pose proof (row_sum_nonneg r Hnn) as Hs.
    assert (Hn : 0 < inject_Z (Z.of_nat (length r))).
    { apply inject_nat_pos. destruct r; [contradiction | simpl; lia]. }
    pose proof (Qmult_lt_0_compat _ _ Hn Ha). lra. }
  assert (Hnz : ~ row_sum (map (fun x => x + alpha) r) == 0) by lra.
  exists (normalize_row (map (fun x => x + alpha) r)).
  split; [|split; [|split; [|split]]].
  - unfold laplace_smoothing. rewrite row_normalize_values. cbn [add_scalar values].
    rewrite map_map. now apply (map_nth_error (fun r => normalize_row (map _ r))).
  - rewrite (normalize_row_nonzero _ Hnz), map_map. reflexivity.
  - apply row_sum_add_scalar.
  - rewrite (normalize_row_nonzero _ Hnz), map_map.
    apply Forall_map. eapply Forall_impl; [|exact Hnn].
    intros x Hx. simpl in *. apply Qlt_shift_div_l; [exact Hpos|]. lra.
  - now apply normalize_row_sum_one.
Qed.

Lemma laplace_smoothing_formula_witness :
  exists r',
    nth_error (values (laplace_smoothing sample_age0 1)) 1 = Some r' /\
    r' = [1 # 2; 1 # 2].
Proof.
  destruct (laplace_smoothing_formula sample_age0 1 1%nat [0; 0])
    as (r' & Hn & Hr' & _).
  - reflexivity.
  - reflexivity.
  - repeat constructor; discriminate.
  - repeat constructor; discriminate.
  - discriminate.
  - exists r'. split; [exact Hn|]. rewrite Hr'. reflexivity.
Defined.

(** ** Validation *)

Lemma clip_nonneg r :
  Forall (fun x => 0 <= x) (map (fun x => if Qle_bool 0 x then x else 0) r).
Proof.
  apply Forall_map, Forall_forall. intros x _. simpl.
  destruct (Qle_bool 0 x) eqn:E; [now apply Qle_bool_iff | apply Qle_refl].
Qed.

Lemma clip_of_nonneg r :
  Forall (fun x => 0 <= x) r -> map (fun x => if Qle_bool 0 x then x else 0) r = r.
Proof.
  induction 1 as [|x r Hx _ IH]; simpl; [reflexivity|].
  rewrite IH. apply Qle_bool_iff in Hx. now rewrite Hx.
Qed.

Lemma ensure_values {I C} (df : DataFrame I C) :
  values (ensure_probability_matrix df)
  = map (fun r => normalize_row (map (fun x => if Qle_bool 0 x then x else 0) r))
        (values df).
Proof.
  unfold ensure_probability_matrix. rewrite row_normalize_values.
  cbn [clip_lower0 values]. now rewrite map_map.
Qed.

(** X5: whatever the cells of its input, negative ones included,
    [ensure_probability_matrix] keeps the labels and returns cells between
    0 and 1 in rows that each sum to 1 or are all zero. *)
Theorem ensure_probability_matrix_valid {I C} (df : DataFrame I C) :
  index (ensure_probability_matrix df) = index df /\
  columns (ensure_probability_matrix df) = columns df /\
  length (values (ensure_probability_matrix df)) = length (values df) /\
  Forall (fun r => Forall (fun x => 0 <= x /\ x <= 1) r /\
                   (row_sum r == 1 \/ Forall (fun x => x == 0) r))
         (values (ensure_probability_matrix df)).
Proof.
  split; [reflexivity|]. split; [reflexivity|]. rewrite ensure_values. split.
  - apply length_map.
  - apply Forall_map, Forall_forall. intros r _. split.
    + apply normalize_row_nonneg_cells, clip_nonneg.
    + set (c := map _ r). destruct (Qeq_bool (row_sum c) 0) eqn:E.
      * right. apply Qeq_bool_iff in E. rewrite (normalize_row_zero c E).
        clear. induction (length c); simpl; constructor; auto. reflexivity.
      * left. apply normalize_row_sum_one. now apply Qeq_bool_neq.
Qed.

(** X6: validating a validated matrix changes nothing. *)
Theorem ensure_probability_matrix_twice {I C} (df : DataFrame I C) :
  frame_eq (ensure_probability_matrix (ensure_probability_matrix df))
           (ensure_probability_matrix df).
Proof.
  repeat split.
  change (rows_eq (values (ensure_probability_matrix (ensure_probability_matrix df)))
                  (values (ensure_probability_matrix df))).
  rewrite (ensure_values (ensure_probability_matrix df)), ensure_values, map_map.
  induction (values df) as [|r v IH]; simpl; constructor; auto.
  rewrite clip_of_nonneg.
  - apply normalize_row_twice.
  - eapply Forall_impl; [|apply normalize_row_nonneg_cells, clip_nonneg].
    intros x [Hx _]. exact Hx.
Qed.

(** ** Sorted axes *)

#[export] Instance string_LabelTotal : LabelTotal string.
Proof. exact String.leb_total. Qed.

#[export] Instance Z_LabelTotal : LabelTotal Z.
Proof. intros x y. simpl. rewrite !Z.leb_le. lia. Qed.

Section SortedFacts.
Context {A : Type} {LA : Label A} {LOk : LabelOk A} {LT : LabelTotal A}.

Lemma insert_sorted_HdRel (x y : A) l :
  label_leb y x = true -> HdRel (fun a b => label_leb a b = true) y l ->
  HdRel (fun a b => label_leb a b = true) y (insert_sorted x l).
Proof.
  intros Hyx Hl. destruct l as [|z l]; simpl.
  - now constructor.
  - destruct (label_leb x z); constructor; auto. now inversion Hl.
Qed.

Lemma insert_sorted_ascending (x : A) l : ascending l -> ascending (insert_sorted x l).
Proof.
  unfold ascending. induction 1 as [|y l Hl IH Hy]; simpl.
  - repeat constructor.
  - destruct (label_leb x y) eqn:E.
    + constructor; [now constructor|]. now constructor.
    + constructor; [exact IH|]. apply insert_sorted_HdRel; [|exact Hy].
      destruct (label_leb_total x y) as [H | H]; [congruence | exact H].
Qed.

Lemma sorted_ascending (l : list A) : ascending (sorted l).
Proof.
  induction l as [|x l IH]; simpl; [constructor|]. now apply insert_sorted_ascending.
Qed.

Lemma unique_sorted_ascending (l : list A) : ascending (unique_sorted l).
Proof. apply sorted_ascending. Qed.
End SortedFacts.

(** ** Shrinkage: labels of the result *)

Lemma states_loop_In (d : Dict Matrix) (acc : list string) (x : string) :
  In x (fold_left (fun s kv => set_update (set_update s (index (snd kv)))
                                          (columns (snd kv))) d acc)
  <-> In x acc \/
      exists kv, In kv d /\ (In x (index (snd kv)) \/ In x (columns (snd kv))).
Proof.
  revert acc. induction d as [|kv d IH]; intros acc; simpl.
  - split; [tauto|]. intros [H | (kv & [] & _)]. exact H.
  - rewrite IH, !set_update_In. split.
    + intros [[[H | H] | H] | (kv' & Hkv & H)]; eauto 6.
    + intros [H | (kv' & [<- | Hkv] & [H | H])]; eauto 6.
Qed.

Lemma states_loop_NoDup (d : Dict Matrix) (acc : list string) :
  NoDup acc ->
  NoDup (fold_left (fun s kv => set_update (set_update s (index (snd kv)))
                                           (columns (snd kv))) d acc).
Proof.
  revert acc. induction d as [|kv d IH]; intros acc Hacc; simpl; auto.
  apply IH. now repeat apply set_update_NoDup.
Qed.

Lemma all_states_In (age_tables : Dict Matrix) (x : string) :
  In x (all_states_of age_tables)
  <-> exists kv, In kv age_tables /\
                 (In x (index (snd kv)) \/ In x (columns (snd kv))).
Proof.
  unfold all_states_of. split.
  - intros Hx. apply (Permutation_in _ (Permutation_sym (sorted_perm _))) in Hx.
    apply states_loop_In in Hx. destruct Hx as [[] | Hx]. exact Hx.
  - intros Hx. apply (Permutation_in _ (sorted_perm _)).
    apply states_loop_In. now right.
Qed.

Lemma all_states_NoDup (age_tables : Dict Matrix) : NoDup (all_states_of age_tables).
Proof.
  unfold all_states_of. apply (Permutation_NoDup (sorted_perm _)).
  apply states_loop_NoDup. constructor.
Qed.

(** X7: the state labels that [shrink_toward_pool] puts on both axes of
    its matrices are in ascending order, without repetition, and are the
    labels found on the rows or the columns of some input table. *)
Theorem all_states_sorted_union (age_tables : Dict Matrix) :
  ascending (all_states_of age_tables) /\
  NoDup (all_states_of age_tables) /\
  forall x, In x (all_states_of age_tables)
            <-> exists kv, In kv age_tables /\
                           (In x (index (snd kv)) \/ In x (columns (snd kv))).
Proof.
  split; [apply sorted_ascending|]. split; [apply all_states_NoDup|].
  apply all_states_In.
Qed.

Lemma dict_get_In {V} (d : Dict V) k v : dict_get d k = Some v -> In (k, v) d.
Proof.
  induction d as [|[k' v'] d IH]; simpl; [discriminate|].
  destruct (Z.eqb_spec k' k) as [->|Hne].
  - intros E. injection E as ->. now left.
  - intros E. right. now apply IH.
Qed.

Lemma shape_scale n m (k : Q) v : shape n m v -> shape n m (map (map (fun x => k * x)) v).
Proof. apply shape_map_rows. intros r. apply length_map. Qed.

Lemma shrink_one_labels (S : list string) (pp : Matrix) (w : Q) (tbl : Matrix) :
  shape (length S) (length S) (values pp) ->
  index (shrink_one S pp w tbl) = S /\
  columns (shrink_one S pp w tbl) = S /\
  shape (length S) (length S) (values (shrink_one S pp w tbl)).
Proof.
  intros Hpp. split; [reflexivity|]. split; [reflexivity|].
  unfold shrink_one. cbn [frame_add frame_scale values].
  apply shape_zip_add; apply shape_scale; [|exact Hpp].
  rewrite row_normalize_values. apply shape_map_rows.
  - apply normalize_row_length.
  - apply reindex_shape.
Qed.

Lemma pooled_probs_shape (age_tables : Dict Matrix) (S : list string) :
  shape (length S) (length S) (values (row_normalize (pooled_of age_tables S))).
Proof.
  rewrite row_normalize_values. apply shape_map_rows.
  - apply normalize_row_length.
  - apply pooled_shape.
Qed.

(** X8: the result of [shrink_toward_pool] has the ages of its input, in
    the same order, and every matrix of the result is square over the
    state labels of all ages, whatever labels the table of that age had. *)
Theorem shrink_toward_pool_labels (age_tables : Dict Matrix) (w : Q) :
  NoDup (map fst age_tables) ->
  map fst (shrink_toward_pool age_tables w) = map fst age_tables /\
  forall age out_tbl,
    dict_get (shrink_toward_pool age_tables w) age = Some out_tbl ->
    index out_tbl = all_states_of age_tables /\
    columns out_tbl = all_states_of age_tables /\
    shape (length (all_states_of age_tables)) (length (all_states_of age_tables))
          (values out_tbl).
Proof.
  intros Hnd. split; [now apply shrink_toward_pool_keys|].
  intros age out_tbl Hget. apply dict_get_In in Hget.
  unfold shrink_toward_pool in Hget. rewrite fold_dict_set_map in Hget by exact Hnd.
  apply in_map_iff in Hget. destruct Hget as (kv & E & _).
  injection E as _ <-. apply shrink_one_labels, pooled_probs_shape.
Qed.

Lemma shrink_toward_pool_labels_witness :
  map fst (shrink_toward_pool sample_tables (1 # 4)) = [0%Z; 1%Z] /\
  forall age out_tbl,
    dict_get (shrink_toward_pool sample_tables (1 # 4)) age = Some out_tbl ->
    index out_tbl = all_states_of sample_tables /\
    columns out_tbl = all_states_of sample_tables /\
    shape (length (all_states_of sample_tables)) (length (all_states_of sample_tables))
          (values out_tbl).
Proof. apply shrink_toward_pool_labels. exact sample_tables_keys. Defined.

(** ** Shrinkage: rows of the result *)

Lemma pooled_loop_row_sum (S : list string) (i : nat) (d : Dict Matrix) :
  forall acc : Matrix,
  (i < length S)%nat ->
  shape (length S) (length S) (values acc) ->
  row_sum (nth i (values (fold_left
             (fun pooled kv => frame_add pooled (reindex (snd kv) S S 0)) d acc)) [])
  == row_sum (nth i (values acc) [])
     + row_sum (map (fun kv => row_sum (nth i (values (reindex (snd kv) S S 0)) [])) d).
Proof.
  induction d as [|kv d IH]; intros acc Hi Hacc; cbn [fold_left map].
  - simpl. ring.
  - rewrite row_sum_cons, IH; [|exact Hi|].
    + cbn [frame_add values].
      pose proof (reindex_shape S (snd kv)) as Hr.
      assert (Hla : (i < length (values acc))%nat) by (destruct Hacc as [-> _]; exact Hi).
      assert (Hlr : (i < length (values (reindex (snd kv) S S 0)))%nat)
        by (destruct Hr as [-> _]; exact Hi).
      rewrite (nth_zip_with _ _ _ _ [] [] []) by assumption.
      rewrite row_sum_zip_add.
      * ring.
      * rewrite (shape_nth_length _ _ _ _ Hacc Hi).
        symmetry. apply (shape_nth_length _ _ _ _ Hr Hi).
    + cbn [frame_add values]. apply shape_zip_add; [exact Hacc | apply reindex_shape].
Qed.

Lemma row_sum_member_le {A} (f : A -> Q) (l : list A) (x : A) :
  (forall y, In y l -> 0 <= f y) -> In x l -> f x <= row_sum (map f l).
Proof.
  induction l as [|y l IH]; simpl; intros Hnn Hin; [contradiction|].
  assert (Hrest : 0 <= row_sum (map f l)).
  { apply row_sum_nonneg, Forall_map, Forall_forall. intros z Hz. apply Hnn. now right. }
  destruct Hin as [-> | Hin].
  - lra.
  - pose proof (Hnn y (or_introl eq_refl)).
    assert (f x <= row_sum (map f l)) by (apply IH; auto). lra.
Qed.

Lemma nonneg_row_of_frame {I C} (df : DataFrame I C) (i : nat) :
  nonneg_frame df -> Forall (fun x => 0 <= x) (nth i (values df) []).
Proof.
  intros Hnn. destruct (nth_in_or_default i (values df) []) as [Hin | ->].
  - unfold nonneg_frame in Hnn. rewrite Forall_forall in Hnn. now apply Hnn.
  - constructor.
Qed.

(** The pooled counts of a state are at least the counts of any one age. *)
Lemma pooled_row_sum_ge (age_tables : Dict Matrix) (age : Z) (tbl : Matrix) (i : nat) :
  (forall kv, In kv age_tables -> nonneg_frame (snd kv)) ->
  In (age, tbl) age_tables ->
  (i < length (all_states_of age_tables))%nat ->
  row_sum (nth i (values (reindex tbl (all_states_of age_tables)
                            (all_states_of age_tables) 0)) [])
  <= row_sum (nth i (values (pooled_of age_tables (all_states_of age_tables))) []).
Proof.
  intros Hnn Hin Hi. set (S := all_states_of age_tables) in *.
  unfold pooled_of. rewrite pooled_loop_row_sum; [|exact Hi|apply shape_grid].
  assert (Hz : row_sum (nth i (values (const_frame 0 S S : Matrix)) []) == 0).
  { cbn [const_frame values]. rewrite (nth_map_rows _ _ _ ""%string []) by exact Hi.
    apply row_sum_zeros. }
  rewrite Hz.
  pose proof (row_sum_member_le
                (fun kv : Z * Matrix => row_sum (nth i (values (reindex (snd kv) S S 0)) []))
                age_tables (age, tbl)) as Hle.
  cbn [snd] in Hle. rewrite Qplus_0_l. apply Hle; [|exact Hin].
  intros kv Hkv. apply row_sum_nonneg, nonneg_row_of_frame, reindex_nonneg. auto.
Qed.

(** X9: with non-negative counts, a state that has at least one
    observation at an age gets, at that age, an output row that sums to 1,
    whatever the pool weight. *)
Theorem shrink_observed_row_sums_to_one
    (age_tables : Dict Matrix) (w : Q) (age : Z) (tbl : Matrix) (i : nat) :
  NoDup (map fst age_tables) ->
  (forall kv, In kv age_tables -> nonneg_frame (snd kv)) ->
  In (age, tbl) age_tables ->
  (i < length (all_states_of age_tables))%nat ->
  ~ Forall (fun x => x == 0)
      (nth i (values (reindex tbl (all_states_of age_tables)
                        (all_states_of age_tables) 0)) []) ->
  exists out_tbl,
    dict_get (shrink_toward_pool age_tables w) age = Some out_tbl /\
    row_sum (nth i (values out_tbl) []) == 1.
Proof.
  intros Hnd Hnn Hin Hi Hobs.
  pose proof (pooled_row_sum_ge age_tables age tbl i Hnn Hin Hi) as Hge.
  set (S := all_states_of age_tables) in *.
  assert (Hrow : ~ row_sum (nth i (values (reindex tbl S S 0)) []) == 0).
  { intros Hs. apply Hobs. apply nonneg_sum_zero; [|exact Hs].
    apply nonneg_row_of_frame, reindex_nonneg. apply (Hnn (age, tbl) Hin). }
  assert (Hrow0 : 0 <= row_sum (nth i (values (reindex tbl S S 0)) [])).
  { apply row_sum_nonneg, nonneg_row_of_frame, reindex_nonneg.
    apply (Hnn (age, tbl) Hin). }
  assert (Hpool : ~ row_sum (nth i (values (pooled_of age_tables S)) []) == 0) by lra.
  eexists. split; [apply shrink_toward_pool_get; eassumption|]. fold S.
  rewrite shrink_one_row; [|apply pooled_probs_shape|exact Hi].
  rewrite row_normalize_values.
  pose proof (pooled_shape age_tables S) as Hps.
  rewrite (nth_map_rows _ _ _ [] []) by (destruct Hps; lia).
  rewrite blend_row_sum.
  - rewrite !normalize_row_sum_one by assumption. ring.
  - rewrite !normalize_row_length.
    rewrite (shape_nth_length _ _ _ _ (reindex_shape S tbl) Hi).
    now rewrite (shape_nth_length _ _ _ _ Hps Hi).
Qed.

Lemma shrink_observed_row_sums_to_one_witness :
  exists out_tbl,
    dict_get (shrink_toward_pool sample_tables (1 # 4)) 0%Z = Some out_tbl /\
    row_sum (nth 0 (values out_tbl) []) == 1.
Proof.
  apply (shrink_observed_row_sums_to_one sample_tables (1 # 4) 0%Z sample_age0 0%nat).
  - exact sample_tables_keys.
  - exact sample_tables_nonneg.
  - left. reflexivity.
  - vm_compute. lia.
  - vm_compute. intros H. inversion H as [|? ? H0 _]. discriminate H0.
Defined.

Lemma blend_cell_bounds (w p q : Q) :
  0 <= w <= 1 -> 0 <= p <= 1 -> 0 <= q <= 1 ->
  0 <= (1 - w) * p + w * q <= 1.
Proof.
  intros [Hw0 Hw1] [Hp0 Hp1] [Hq0 Hq1].
  assert (H1 : 0 <= (1 - w) * p) by (apply Qmult_le_0_compat; lra).
  assert (H2 : 0 <= w * q) by (apply Qmult_le_0_compat; lra).
  assert (H3 : 0 <= (1 - w) * (1 - p)) by (apply Qmult_le_0_compat; lra).
  assert (H4 : 0 <= w * (1 - q)) by (apply Qmult_le_0_compat; lra).
  split; lra.
Qed.

Lemma blend_row_bounds (w : Q) p q :
  0 <= w <= 1 ->
  Forall (fun x => 0 <= x /\ x <= 1) p -> Forall (fun x => 0 <= x /\ x <= 1) q ->
  Forall (fun x => 0 <= x /\ x <= 1)
    (zip_with Qplus (map (fun x => (1 - w) * x) p) (map (fun x => w * x) q)).
Proof.
  intros Hw Hp. revert q. induction Hp as [|x p Hx _ IH]; intros q Hq; simpl.
  - constructor.
  - destruct Hq as [|y q Hy Hq]; simpl; constructor.
    + now apply blend_cell_bounds.
    + now apply IH.
Qed.

Lemma blend_bounds (w : Q) v u :
  0 <= w <= 1 ->
  Forall (Forall (fun x => 0 <= x /\ x <= 1)) v ->
  Forall (Forall (fun x => 0 <= x /\ x <= 1)) u ->
  Forall (Forall (fun x => 0 <= x /\ x <= 1))
    (zip_with (zip_with Qplus) (map (map (fun x => (1 - w) * x)) v)
                               (map (map (fun x => w * x)) u)).
Proof.
  intros Hw Hv. revert u. induction Hv as [|p v Hp _ IH]; intros u Hu; simpl.
  - constructor.
  - destruct Hu as [|q u Hq Hu]; simpl; constructor.
    + now apply blend_row_bounds.
    + now apply IH.
Qed.

(** X10: with non-negative counts and a pool weight between 0 and 1,
    every cell of every matrix returned by [shrink_toward_pool] lies
    between 0 and 1. *)
Theorem shrink_cells_in_unit_interval
    (age_tables : Dict Matrix) (w : Q) (age : Z) (out_tbl : Matrix) :
  NoDup (map fst age_tables) ->
  (forall kv, In kv age_tables -> nonneg_frame (snd kv)) ->
  0 <= w <= 1 ->
  dict_get (shrink_toward_pool age_tables w) age = Some out_tbl ->
  Forall (Forall (fun x => 0 <= x /\ x <= 1)) (values out_tbl).
Proof.
  intros Hnd Hnn Hw Hget. apply dict_get_In in Hget.
  unfold shrink_toward_pool in Hget. rewrite fold_dict_set_map in Hget by exact Hnd.
  apply in_map_iff in Hget. destruct Hget as (kv & E & Hkv).
  injection E as _ <-. unfold shrink_one. cbn [frame_add frame_scale values].
  apply blend_bounds; [exact Hw | |].
  - apply normalized_cells_in_unit_interval, reindex_nonneg. now apply Hnn.
  - apply normalized_cells_in_unit_interval. now apply pooled_nonneg.
Qed.

Lemma shrink_cells_in_unit_interval_witness :
  exists out_tbl,
    dict_get (shrink_toward_pool sample_tables (1 # 4)) 1%Z = Some out_tbl /\
    Forall (Forall (fun x => 0 <= x /\ x <= 1)) (values out_tbl).
Proof.
  eexists. split.
  - apply (shrink_toward_pool_get sample_tables (1 # 4) 1%Z sample_age1).
    + exact sample_tables_keys.
    + right. left. reflexivity.
  - eapply (shrink_cells_in_unit_interval sample_tables (1 # 4) 1%Z).
    + exact sample_tables_keys.
    + exact sample_tables_nonneg.
    + split; discriminate.
    + apply (shrink_toward_pool_get sample_tables (1 # 4) 1%Z sample_age1).
      * exact sample_tables_keys.
      * right. left. reflexivity.
Defined.

Lemma zero_plus_row (z r : list Q) :
  length z = length r -> Forall (fun x => x == 0) z ->
  Forall2 Qeq (zip_with Qplus z r) r.
Proof.
  revert r. induction z as [|x z IH]; intros [|y r] E Hz; simpl; try discriminate;
    constructor.
  - inversion Hz as [|? ? Hx _]; subst. rewrite Hx. ring.
  - inversion Hz; subst. apply IH; auto.
Qed.

Lemma zero_plus_rows {A B} (rs : list A) (cs : list B) (v : list (list Q)) :
  shape (length rs) (length cs) v ->
  rows_eq (zip_with (zip_with Qplus)
             (map (fun _ => map (fun _ => 0) cs) rs) v) v.
Proof.
  intros [Hn Hm].
  revert v Hn Hm. induction rs as [|r rs IH]; intros [|row v] Hn Hm; simpl in *;
    try discriminate; constructor.
  - inversion Hm; subst. apply zero_plus_row.
    + rewrite length_map. congruence.
    + apply Forall_map, Forall_forall. intros x _. reflexivity.
  - inversion Hm; subst. apply IH; auto.
Qed.

Lemma blend_same_row (w : Q) p q :
  Forall2 Qeq q p ->
  Forall2 Qeq (zip_with Qplus (map (fun x => (1 - w) * x) p) (map (fun x => w * x) q)) p.
Proof.
  induction 1 as [|y x q p Hyx _ IH]; simpl; constructor; auto.
  rewrite Hyx. ring.
Qed.

Lemma blend_same (w : Q) v u :
  rows_eq u v ->
  rows_eq (zip_with (zip_with Qplus) (map (map (fun x => (1 - w) * x)) v)
                                     (map (map (fun x => w * x)) u)) v.
Proof.
  induction 1; simpl; constructor; auto. now apply blend_same_row.
Qed.

(** X11: when the dict holds a single age, the pooled matrix is that
    age's own matrix, and shrinkage returns the age's own probabilities
    whatever the pool weight. *)
Theorem shrink_single_age (age : Z) (tbl : Matrix) (w : Q) :
  exists out_tbl,
    shrink_toward_pool [(age, tbl)] w = [(age, out_tbl)] /\
    frame_eq out_tbl
      (row_normalize (reindex tbl (all_states_of [(age, tbl)])
                        (all_states_of [(age, tbl)]) 0)).
Proof.
  eexists. split; [reflexivity|].
  set (S := all_states_of [(age, tbl)]).
  repeat split. unfold shrink_one. cbn [frame_add frame_scale values].
  apply blend_same.
  change (rows_eq (values (row_normalize (pooled_of [(age, tbl)] S)))
                  (values (row_normalize (reindex tbl S S 0)))).
  rewrite !row_normalize_values.
  apply rows_eq_map; [apply normalize_row_Forall2|].
  unfold pooled_of. cbn [fold_left snd frame_add values].
  apply (zero_plus_rows S S), reindex_shape.
Qed.

(** ** Reindexing and pooling keep every count *)

Lemma sum_by_position {A} (g : A -> Q) (l : list A) (d : A) :
  row_sum (map g l) = row_sum (map (fun i => g (nth i l d)) (seq 0 (length l))).
Proof.
  induction l as [|x l IH]; [reflexivity|].
  cbn [length seq map]. rewrite <- seq_shift, map_map, !row_sum_cons. cbn [nth].
  now rewrite IH.
Qed.

Lemma row_sum_by_position (r : list Q) :
  row_sum r = row_sum (map (fun j => nth j r 0) (seq 0 (length r))).
Proof.
  rewrite <- (sum_by_position (fun x => x) r 0). now rewrite map_id.
Qed.

Section GetLoc.
Context {A : Type} {LA : Label A} {LOk : LabelOk A}.

Lemma get_loc_None (x : A) L : ~ In x L -> get_loc x L = None.
Proof.
  induction L as [|y L IH]; simpl; intros Hx; [reflexivity|].
  destruct (label_eqb x y) eqn:E.
  - apply label_eqb_eq in E. elim Hx. now left.
  - rewrite IH; [reflexivity|]. intros Hin. apply Hx. now right.
Qed.

Lemma label_eqb_sym (x y : A) : label_eqb x y = label_eqb y x.
Proof.
  destruct (label_eqb x y) eqn:E, (label_eqb y x) eqn:E'; auto.
  - apply label_eqb_eq in E. subst.
    assert (label_eqb y y = true) by now apply label_eqb_eq. congruence.
  - apply label_eqb_eq in E'. subst.
    assert (label_eqb x x = true) by now apply label_eqb_eq. congruence.
Qed.

(** Summing, over the labels of an axis, a quantity found through the
    position of the label on another axis is summing over the positions. *)
Lemma sum_via_get_loc (L T : list A) :
  forall f : nat -> Q,
  NoDup L -> NoDup T -> incl L T ->
  row_sum (map (fun x => match get_loc x L with Some i => f i | None => 0 end) T)
  == row_sum (map f (seq 0 (length L))).
Proof.
  induction L as [|y L IH]; intros f HL HS Hincl.
  - simpl. apply row_sum_map_zero.
  - inversion HL as [|? ? Hy HL']; subst.
    rewrite (row_sum_map_ext _
               (fun x => (if label_eqb y x then f O else 0)
                         + match get_loc x L with Some i => f (S i) | None => 0 end)).
    + rewrite row_sum_map_add.
      rewrite row_sum_indicator by (auto; apply Hincl; now left).
      rewrite (IH (fun i => f (S i))); auto.
      * cbn [length seq map]. rewrite <- seq_shift, map_map, row_sum_cons.
        reflexivity.
      * intros z Hz. apply Hincl. now right.
    + intros x _. cbn [get_loc]. rewrite (label_eqb_sym y x).
      destruct (label_eqb x y) eqn:E.
      * apply label_eqb_eq in E. subst. rewrite (get_loc_None y L Hy). ring.
      * destruct (get_loc x L); simpl; ring.
Qed.
End GetLoc.

Lemma reindex_total (tbl : Matrix) (S : list string) :
  well_formed tbl -> NoDup S -> incl (index tbl) S -> incl (columns tbl) S ->
  total (reindex tbl S S 0) == total tbl.
Proof.
  intros (Hi & Hc & Hn & Hm) HS Hii Hic.
  unfold total, reindex. cbn [values]. rewrite map_map.
  rewrite (row_sum_map_ext _
             (fun r => match get_loc r (index tbl) with
                       | Some i => row_sum (nth i (values tbl) [])
                       | None => 0
                       end)).
  - rewrite sum_via_get_loc by assumption.
    rewrite <- Hn. symmetry. now rewrite (sum_by_position row_sum (values tbl) []).
  - intros r _. unfold cell_at.
    destruct (get_loc r (index tbl)) as [i|] eqn:E.
    + rewrite (sum_via_get_loc (columns tbl) S
                 (fun j => nth j (nth i (values tbl) []) 0)) by assumption.
      destruct (nth_in_or_default i (values tbl) []) as [Hin | Hd].
      * rewrite Forall_forall in Hm. rewrite <- (Hm _ Hin).
        now rewrite <- row_sum_by_position.
      * rewrite Hd. simpl.
        rewrite (row_sum_map_ext _ (fun _ => 0)); [apply row_sum_map_zero|].
        intros j _. destruct j; reflexivity.
    + apply row_sum_map_zero.
Qed.

Lemma total_zip_add v w :
  Forall2 (fun a b => length a = length b) v w ->
  row_sum (map row_sum (zip_with (zip_with Qplus) v w))
  == row_sum (map row_sum v) + row_sum (map row_sum w).
Proof.
  induction 1 as [|a b v w Hab _ IH]; cbn [zip_with map]; [simpl; ring|].
  rewrite !row_sum_cons, IH, row_sum_zip_add by exact Hab. ring.
Qed.

Lemma pooled_loop_total (S : list string) (d : Dict Matrix) :
  forall acc : Matrix,
  shape (length S) (length S) (values acc) ->
  total (fold_left (fun pooled kv => frame_add pooled (reindex (snd kv) S S 0)) d acc)
  == total acc + row_sum (map (fun kv => total (reindex (snd kv) S S 0)) d).
Proof.
  induction d as [|kv d IH]; intros acc Hacc; cbn [fold_left map].
  - simpl. ring.
  - rewrite row_sum_cons, IH.
    + unfold total at 1. cbn [frame_add values]. rewrite total_zip_add.
      * unfold total. ring.
      * eapply shape_same_lengths; [exact Hacc | apply reindex_shape].
    + cbn [frame_add values]. apply shape_zip_add; [exact Hacc | apply reindex_shape].
Qed.

(** X12: when the tables are well formed, the pooled counts add up to the
    sum of the counts of all the ages: reindexing onto the union of the
    labels and summing drops no count and counts none twice. *)
Theorem pooled_counts_conserved (age_tables : Dict Matrix) :
  (forall kv, In kv age_tables -> well_formed (snd kv)) ->
  total (pooled_of age_tables (all_states_of age_tables))
  == row_sum (map (fun kv => total (snd kv)) age_tables).
Proof.
  intros Hwf. unfold pooled_of. rewrite pooled_loop_total by apply shape_grid.
  assert (Hz : total (const_frame 0 (all_states_of age_tables)
                        (all_states_of age_tables) : Matrix) == 0).
  { unfold total, const_frame. cbn [values]. rewrite map_map.
    rewrite (row_sum_map_ext _ (fun _ => 0)); [apply row_sum_map_zero|].
    intros r _. apply row_sum_map_zero. }
  rewrite Hz, Qplus_0_l. apply row_sum_map_ext. intros kv Hkv.
  apply reindex_total.
  - now apply Hwf.
  - apply all_states_NoDup.
  - intros x Hx. apply all_states_In. eauto.
  - intros x Hx. apply all_states_In. eauto.
Qed.

Lemma sample_tables_well_formed kv : In kv sample_tables -> well_formed (snd kv).
Proof.
  intros [<- | [<- | []]]; unfold well_formed, shape; simpl;
    repeat split; repeat constructor; simpl; intuition discriminate.
Qed.

Lemma pooled_counts_conserved_witness :
  total (pooled_of sample_tables (all_states_of sample_tables))
  == row_sum (map (fun kv => total (snd kv)) sample_tables).
Proof. apply pooled_counts_conserved. exact sample_tables_well_formed. Defined.

(** ** Empirical transitions: what is filed where *)




(** X14: records of one entity multiply in the join.  With [m] records of
    the entity at age [a] and [n] at age [a + 1], the join holds [n * m]
    rows for the entity, under age [a + 1]; a table with one record per
    entity and age gives at most one. *)
Theorem join_multiplies_repeated_records (rows : list (LoanRow * Z))
    (e : string) (a : Z) :
  joined_at (joined_of rows) e (a + 1)
  = (records_at rows e (a + 1) * records_at rows e a)%nat.
Proof. apply joined_pairs_count. Qed.







(** ** Validation and normalisation compose *)

(** X17: on a frame without negative cells the clipping does nothing:
    [ensure_probability_matrix] returns what [row_normalize] returns. *)
Theorem ensure_probability_matrix_on_nonneg {I C} (df : DataFrame I C) :
  nonneg_frame df -> ensure_probability_matrix df = row_normalize df.
Proof.
  intros Hnn. unfold ensure_probability_matrix. f_equal.
  destruct df as [idx cols v]. unfold clip_lower0. cbn [index columns values] in *.
  f_equal. unfold nonneg_frame in Hnn. cbn [values] in Hnn.
  induction Hnn as [|r v Hr _ IH]; simpl; [reflexivity|].
  now rewrite IH, (clip_of_nonneg r Hr).
Qed.

Lemma ensure_probability_matrix_on_nonneg_witness :
  ensure_probability_matrix sample_age0 = row_normalize sample_age0.
Proof.
  apply ensure_probability_matrix_on_nonneg.
  unfold nonneg_frame; simpl. repeat constructor; discriminate.
Defined.

(** ** Age in months: more *)

(** X18: [compute_age_months] does not trust an age column that is already
    there: the ages it returns are those derived from the dates, so
    applying it twice is applying it once. *)
Theorem compute_age_months_recomputes (df : LoanFrame) :
  compute_age_months df = compute_age_months (Raw (loan_rows df)) /\
  compute_age_months (compute_age_months df) = compute_age_months df.
Proof.
  split; [reflexivity|].
  unfold compute_age_months. cbn [loan_rows]. rewrite !map_map. reflexivity.
Qed.

(** X19: for calendar months numbered 1 to 12, a later observation never
    gives a smaller age, and a later origination never gives a larger one. *)
Theorem age_monotone (r1 r2 : LoanRow) :
  (1 <= month (observation_date r1) <= 12)%Z ->
  (1 <= month (observation_date r2) <= 12)%Z ->
  (1 <= month (origination_date r1) <= 12)%Z ->
  (1 <= month (origination_date r2) <= 12)%Z ->
  Timestamp_leb (observation_date r1) (observation_date r2) = true ->
  Timestamp_leb (origination_date r2) (origination_date r1) = true ->
  (age_of r1 <= age_of r2)%Z.
Proof.
  intros Hm1 Hm2 Hn1 Hn2 Hobs Horig.
  assert (Hperiod : forall a b : Timestamp,
            (1 <= month a <= 12)%Z -> (1 <= month b <= 12)%Z ->
            Timestamp_leb a b = true -> (to_period_M a <= to_period_M b)%Z).
  { intros a b Ha Hb. unfold Timestamp_leb, to_period_M. cbn.
    destruct (Z.eqb_spec (year a) (year b)) as [Ey | Ey].
    - destruct (Z.eqb_spec (month a) (month b)) as [Em | Em].
      + intros _. lia.
      + intros H. apply Z.leb_le in H. lia.
    - intros H. apply Z.leb_le in H. lia. }
  unfold age_of.
  pose proof (Hperiod _ _ Hm1 Hm2 Hobs). pose proof (Hperiod _ _ Hn2 Hn1 Horig). lia.
Qed.

Lemma age_monotone_witness :
  (age_of earlier_month_observation <= age_of month_end_origination)%Z.
Proof.
  apply age_monotone; try (vm_compute; intuition discriminate); reflexivity.
Defined.

(** ** Vintage pivot: axes and cells *)

#[export] Instance pair_LabelTotal {A B} {LA : Label A} {LB : Label B}
    {OkA : LabelOk A} {TA : LabelTotal A} {TB : LabelTotal B} :
  LabelTotal (A * B).
Proof.
  intros [a b] [a' b']. simpl. rewrite (label_eqb_sym a' a).
  destruct (label_eqb a a').
  - apply label_leb_total.
  - apply label_leb_total.
Qed.

#[export] Instance Timestamp_LabelTotal : LabelTotal Timestamp.
Proof.
  intros a b.
  apply (label_leb_total (year a, (month a, (day a, time_ns a)))
                         (year b, (month b, (day b, time_ns b)))).
Qed.

Lemma groupby_sum_In (rows : list (LoanRow * Z)) (kq : PivotKey * Q) :
  In kq (groupby_sum rows) <->
  (exists ra, In ra rows /\ pivot_key ra = fst kq) /\
  snd kq = group_sum pivot_key (fun ra => balance (fst ra)) rows (fst kq).
Proof.
  unfold groupby_sum. rewrite in_map_iff. split.
  - intros (k & <- & Hk). apply (proj1 (unique_sorted_In _ _)) in Hk.
    apply in_map_iff in Hk. destruct Hk as (ra & <- & Hra). split; eauto.
  - intros ((ra & Hra & Hk) & Hq). exists (fst kq). split.
    + destruct kq as [k q]. simpl in *. now subst.
    + apply unique_sorted_In. rewrite <- Hk. now apply in_map.
Qed.

(** On a table in which no value is missing, the rows of the pivot are
    the distinct (vintage, age) pairs of the records and its columns their
    distinct states, both in ascending order; each row has one cell per
    column. *)
Lemma build_vintage_pivot_axes (df : LoanFrame) :
  ascending (index (build_vintage_pivot df)) /\
  NoDup (index (build_vintage_pivot df)) /\
  (forall va, In va (index (build_vintage_pivot df)) <->
     exists ra, In ra (with_ages df) /\ (origination_date (fst ra), snd ra) = va) /\
  ascending (columns (build_vintage_pivot df)) /\
  NoDup (columns (build_vintage_pivot df)) /\
  (forall s, In s (columns (build_vintage_pivot df)) <->
     exists ra, In ra (with_ages df) /\ delinquency_bucket (fst ra) = s) /\
  shape (length (index (build_vintage_pivot df)))
        (length (columns (build_vintage_pivot df)))
        (values (build_vintage_pivot df)).
Proof.
  unfold build_vintage_pivot, with_ages.
  set (rows := aged_rows (if has_age_col df then df else compute_age_months df)).
  cbn [pivot_table index columns values].
  split; [apply unique_sorted_ascending|]. split; [apply unique_sorted_NoDup|].
  split; [|split; [apply unique_sorted_ascending|]; split; [apply unique_sorted_NoDup|];
           split; [|apply shape_grid]].
  - intros va. rewrite (unique_sorted_In _ va), in_map_iff. split.
    + intros (kq & <- & Hkq). apply groupby_sum_In in Hkq.
      destruct Hkq as ((ra & Hra & E) & _). exists ra. split; [exact Hra|].
      destruct kq as [[va' s'] q]. cbn [fst snd] in *. unfold pivot_key in E.
      now injection E.
    + intros (ra & Hra & <-).
      exists (pivot_key ra, group_sum pivot_key (fun ra => balance (fst ra)) rows
                              (pivot_key ra)).
      split; [reflexivity|]. apply groupby_sum_In. split; eauto.
  - intros s. rewrite (unique_sorted_In _ s), in_map_iff. split.
    + intros (kq & <- & Hkq). apply groupby_sum_In in Hkq.
      destruct Hkq as ((ra & Hra & E) & _). exists ra. split; [exact Hra|].
      destruct kq as [[va' s'] q]. cbn [fst snd] in *. unfold pivot_key in E.
      now injection E.
    + intros (ra & Hra & <-).
      exists (pivot_key ra, group_sum pivot_key (fun ra => balance (fst ra)) rows
                              (pivot_key ra)).
      split; [reflexivity|]. apply groupby_sum_In. split; eauto.
Qed.

(** X21: the cell of the pivot under a (vintage, age) row and a state
    column holds the sum of the balances of the records of that vintage,
    age and state; it holds 0 when there is no such record. *)
Theorem build_vintage_pivot_cells (df : LoanFrame) (i j : nat)
    (va : Timestamp * Z) (s : string) :
  nth_error (index (build_vintage_pivot df)) i = Some va ->
  nth_error (columns (build_vintage_pivot df)) j = Some s ->
  nth j (nth i (values (build_vintage_pivot df)) []) 0
  == group_sum pivot_key (fun ra => balance (fst ra)) (with_ages df) (va, s) /\
  ((forall ra, In ra (with_ages df) -> pivot_key ra <> (va, s)) ->
   nth j (nth i (values (build_vintage_pivot df)) []) 0 == 0).
Proof.
  unfold build_vintage_pivot, with_ages.
  set (rows := aged_rows (if has_age_col df then df else compute_age_months df)).
  cbn [pivot_table index columns values]. intros Hi Hj.
  assert (Hcell : nth j (nth i
             (map (fun va => map (fun s => pivot_cell (groupby_sum rows) 0 va s)
                    (unique_sorted (map (fun kq => snd (fst kq)) (groupby_sum rows))))
                  (unique_sorted (map (fun kq => fst (fst kq)) (groupby_sum rows)))) []) 0
           = pivot_cell (groupby_sum rows) 0 va s).
  { erewrite (nth_error_nth _ _ []);
      [|apply (map_nth_error (fun va => map _ _) _ _ Hi)].
    erewrite (nth_error_nth _ _ 0);
      [|apply (map_nth_error (fun s => pivot_cell _ 0 va s) _ _ Hj)].
    reflexivity. }
  rewrite Hcell. split; [apply pivot_cell_group_sum|].
  intros Habs. rewrite pivot_cell_group_sum. apply group_sum_absent.
  intros Hin. apply in_map_iff in Hin. destruct Hin as (ra & E & Hra).
  now apply (Habs ra Hra).
Qed.

Lemma build_vintage_pivot_cells_witness :
  nth 0 (nth 1 (values (build_vintage_pivot entity_X)) []) 0
  == group_sum pivot_key (fun ra => balance (fst ra)) (with_ages entity_X)
       ((mkTimestamp 2020 1 1 0, 1%Z), "A"%string) /\
  ((forall ra, In ra (with_ages entity_X) ->
      pivot_key ra <> ((mkTimestamp 2020 1 1 0, 1%Z), "A"%string)) ->
   nth 0 (nth 1 (values (build_vintage_pivot entity_X)) []) 0 == 0).
Proof.
  apply (build_vintage_pivot_cells entity_X 1 0); reflexivity.
Defined.

(** ** Vintage pivot over records with missing values *)

Section GroupedBy.
Context {R : Type}.
Variable key : R -> PivotKey.
Variable val : R -> Q.

Lemma pivot_cell_grouped (rs : list R) va s :
  pivot_cell (map (fun k => (k, group_sum key val rs k))
                  (unique_sorted (map key rs))) 0 va s
  == group_sum key val rs (va, s).
Proof.
  unfold pivot_cell.
  destruct (mem (va, s) (unique_sorted (map key rs))) eqn:E.
  - apply mem_In in E.
    rewrite filter_grouped_present;
      [apply mean_singleton | apply unique_sorted_NoDup | exact E].
  - assert (Hn : ~ In (va, s) (unique_sorted (map key rs))).
    { intros Hin. apply mem_In in Hin. congruence. }
    rewrite filter_grouped_absent by exact Hn.
    symmetry. apply group_sum_absent.
    intros Hin. apply Hn. now apply unique_sorted_In.
Qed.

Lemma pivot_total_grouped (rs : list R) :
  total (pivot_table (map (fun k => (k, group_sum key val rs k))
                          (unique_sorted (map key rs))) 0)
  == row_sum (map val rs).
Proof.
  set (grouped := map (fun k => (k, group_sum key val rs k))
                      (unique_sorted (map key rs))).
  unfold total, pivot_table. cbn [values]. rewrite map_map.
  set (idx := unique_sorted (map (fun kq => fst (fst kq)) grouped)).
  set (cols := unique_sorted (map (fun kq => snd (fst kq)) grouped)).
  rewrite (row_sum_map_ext _
             (fun va => row_sum (map (fun s => group_sum key val rs (va, s)) cols))).
  - apply grid_sum_conserved; try apply unique_sorted_NoDup.
    intros r Hr.
    assert (Hk : In (key r, group_sum key val rs (key r)) grouped).
    { unfold grouped.
      apply (in_map (fun k => (k, group_sum key val rs k))).
      apply unique_sorted_In. now apply in_map. }
    split; apply unique_sorted_In.
    + apply (in_map (fun kq => fst (fst kq))) in Hk. exact Hk.
    + apply (in_map (fun kq => snd (fst kq))) in Hk. exact Hk.
  - intros va _. apply row_sum_map_ext. intros s _.
    apply pivot_cell_grouped.
Qed.
End GroupedBy.

Lemma ages_of_records_dated (rows : list LoanRecord) :
  forallb dated rows = true ->
  exists aged, ages_of_records rows = Some aged /\ map fst aged = rows.
Proof.
  induction rows as [|r rows IH]; cbn [forallb ages_of_records]; intros H.
  - exists []. split; reflexivity.
  - apply andb_true_iff in H. destruct H as [Hr Hrows].
    destruct (IH Hrows) as (aged & -> & Hfst).
    unfold dated in Hr. unfold record_age.
    destruct (rec_observation_date r); [|discriminate].
    destruct (rec_origination_date r); [|discriminate].
    eexists. split; [reflexivity|]. cbn [map fst]. now rewrite Hfst.
Qed.

(** With the ages at hand the call returns, and the pivot is built from
    the records of the input, in their order. *)
Lemma build_vintage_pivot_records_returns (df : RecordFrame) :
  ages_available df = true ->
  exists rows,
    with_ages_records df = Some rows /\
    map fst rows = record_rows df /\
    build_vintage_pivot_records df
    = Some (pivot_table (groupby_sum_records rows) 0).
Proof.
  unfold ages_available, with_ages_records, build_vintage_pivot_records.
  destruct df as [rows | rows]; cbn [has_age_col_records orb record_rows].
  - intros H. unfold compute_age_months_records. cbn [record_rows].
    destruct (ages_of_records_dated rows H) as (aged & -> & Hfst).
    exists aged. cbn [aged_records]. repeat split. exact Hfst.
  - intros _. exists rows. cbn [aged_records]. repeat split.
Qed.

Lemma keyed_rows_values (rows : list (LoanRecord * option Z)) :
  map snd (keyed_rows rows)
  = map (fun ra => record_value (fst ra)) (filter complete rows).
Proof.
  unfold keyed_rows, complete.
  induction rows as [|ra rows IH]; cbn [flat_map filter]; [reflexivity|].
  destruct (record_key ra); cbn [app map snd]; now rewrite IH.
Qed.

Lemma keyed_rows_keys (rows : list (LoanRecord * option Z)) (k : PivotKey) :
  In k (map fst (keyed_rows rows)) <->
  exists ra, In ra rows /\ record_key ra = Some k.
Proof.
  unfold keyed_rows. rewrite in_map_iff. split.
  - intros (kq & <- & Hkq). apply in_flat_map in Hkq.
    destruct Hkq as (ra & Hra & Hkq). exists ra. split; [exact Hra|].
    destruct (record_key ra); [|contradiction].
    destruct Hkq as [<- | []]. reflexivity.
  - intros (ra & Hra & Hk). exists (k, record_value (fst ra)).
    split; [reflexivity|]. apply in_flat_map. exists ra. split; [exact Hra|].
    rewrite Hk. now left.
Qed.

Lemma groupby_sum_records_keys (rows : list (LoanRecord * option Z)) (k : PivotKey) :
  In k (map fst (groupby_sum_records rows)) <->
  exists ra, In ra rows /\ record_key ra = Some k.
Proof.
  unfold groupby_sum_records. rewrite map_map. cbn [fst]. rewrite map_id.
  rewrite unique_sorted_In. apply keyed_rows_keys.
Qed.

Lemma pivot_total_records (rows : list (LoanRecord * option Z)) :
  total (pivot_table (groupby_sum_records rows) 0)
  == row_sum (map (fun ra => record_value (fst ra)) (filter complete rows)).
Proof.
  unfold groupby_sum_records. rewrite pivot_total_grouped.
  now rewrite keyed_rows_values.
Qed.

(** C4, as amended: when the ages are present or can be computed, the call
    returns, and the cells of the pivot add up to the sum of the balances
    of the input rows whose vintage, age and state are all present, a
    missing balance counting for nothing.  The rows with a missing
    vintage, age or state are left out by the grouping. *)
Theorem build_vintage_pivot_conserves_complete_rows (df : RecordFrame) :
  ages_available df = true ->
  exists rows pivot,
    with_ages_records df = Some rows /\
    map fst rows = record_rows df /\
    build_vintage_pivot_records df = Some pivot /\
    total pivot
    == row_sum (map (fun ra => record_value (fst ra)) (filter complete rows)).
Proof.
  intros H.
  destruct (build_vintage_pivot_records_returns df H) as (rows & Hrows & Hfst & Hp).
  exists rows, (pivot_table (groupby_sum_records rows) 0).
  repeat split; try assumption. apply pivot_total_records.
Qed.

Lemma build_vintage_pivot_conserves_complete_rows_witness :
  exists rows pivot,
    with_ages_records sample_missing_state = Some rows /\
    map fst rows = record_rows sample_missing_state /\
    build_vintage_pivot_records sample_missing_state = Some pivot /\
    total pivot
    == row_sum (map (fun ra => record_value (fst ra)) (filter complete rows)).
Proof.
  apply build_vintage_pivot_conserves_complete_rows. reflexivity.
Defined.

(** C4, counterexample: two records of one vintage and age with balances
    3 and 4, the second without a state.  The call returns, the cells of
    the pivot add up to 3, and the balances of the input rows to 7. *)
Lemma missing_state_row_left_out :
  exists pivot,
    build_vintage_pivot_records sample_missing_state = Some pivot /\
    total pivot == 3 /\
    row_sum (map record_value (record_rows sample_missing_state)) == 7 /\
    ~ total pivot
      == row_sum (map record_value (record_rows sample_missing_state)).
Proof.
  eexists. split; [reflexivity|].
  split; [vm_compute; reflexivity|]. split; [vm_compute; reflexivity|].
  vm_compute. intros H. discriminate H.
Qed.

(** On a table in which no value is missing the pivot over records is the
    pivot over the typed table. *)
Lemma keyed_rows_records_of (rows : list (LoanRow * Z)) :
  keyed_rows (map (fun ra => (record_of (fst ra), Some (snd ra))) rows)
  = map (fun ra => (pivot_key ra, balance (fst ra))) rows.
Proof.
  unfold keyed_rows.
  induction rows as [|ra rows IH]; cbn [map flat_map]; [reflexivity|].
  rewrite IH. reflexivity.
Qed.

Lemma group_sum_map {K R T} `{Label K} (f : R -> T) (key : T -> K) (val : T -> Q)
    (rs : list R) (k : K) :
  group_sum key val (map f rs) k
  = group_sum (fun r => key (f r)) (fun r => val (f r)) rs k.
Proof.
  unfold group_sum. f_equal.
  induction rs as [|r rs IH]; cbn [map filter]; [reflexivity|].
  destruct (label_eqb (key (f r)) k); cbn [map]; now rewrite IH.
Qed.

Lemma groupby_sum_records_of (rows : list (LoanRow * Z)) :
  groupby_sum_records (map (fun ra => (record_of (fst ra), Some (snd ra))) rows)
  = groupby_sum rows.
Proof.
  unfold groupby_sum_records, groupby_sum.
  rewrite keyed_rows_records_of.
  rewrite (map_map (fun ra => (pivot_key ra, balance (fst ra))) fst). cbn [fst].
  apply map_ext. intros k. f_equal.
  exact (group_sum_map (fun ra => (pivot_key ra, balance (fst ra))) fst snd rows k).
Qed.

Lemma ages_of_records_of (rows : list LoanRow) :
  ages_of_records (map record_of rows)
  = Some (map (fun ra => (record_of (fst ra), Some (snd ra)))
              (map (fun r => (r, age_of r)) rows)).
Proof.
  induction rows as [|r rows IH]; cbn [map ages_of_records]; [reflexivity|].
  rewrite IH. reflexivity.
Qed.

Lemma build_vintage_pivot_records_complete (df : LoanFrame) :
  build_vintage_pivot_records (records_of df) = Some (build_vintage_pivot df).
Proof.
  unfold build_vintage_pivot_records, build_vintage_pivot.
  destruct df as [rows | rows]; cbn [records_of has_age_col_records has_age_col].
  - unfold compute_age_months_records, compute_age_months.
    cbn [record_rows loan_rows aged_rows].
    rewrite ages_of_records_of. cbn [aged_records].
    now rewrite groupby_sum_records_of.
  - cbn [aged_records aged_rows]. now rewrite groupby_sum_records_of.
Qed.

(** X20: when the ages are present or can be computed, the rows of the
    pivot are the distinct (vintage, age) pairs, and its columns the
    distinct states, of the records whose vintage, age and state are all
    present, both in ascending order; each row has one cell per column.
    A record with a missing key adds no row and no column. *)
Theorem build_vintage_pivot_records_axes (df : RecordFrame) :
  ages_available df = true ->
  exists rows pivot,
    with_ages_records df = Some rows /\
    build_vintage_pivot_records df = Some pivot /\
    ascending (index pivot) /\
    NoDup (index pivot) /\
    (forall va, In va (index pivot) <->
       exists ra s, In ra rows /\ record_key ra = Some (va, s)) /\
    ascending (columns pivot) /\
    NoDup (columns pivot) /\
    (forall s, In s (columns pivot) <->
       exists ra va, In ra rows /\ record_key ra = Some (va, s)) /\
    shape (length (index pivot)) (length (columns pivot)) (values pivot).
Proof.
  intros H.
  destruct (build_vintage_pivot_records_returns df H) as (rows & Hrows & _ & Hp).
  exists rows, (pivot_table (groupby_sum_records rows) 0).
  split; [exact Hrows|]. split; [exact Hp|].
  cbn [pivot_table index columns values].
  split; [apply unique_sorted_ascending|]. split; [apply unique_sorted_NoDup|].
  split; [|split; [apply unique_sorted_ascending|]; split; [apply unique_sorted_NoDup|];
           split; [|apply shape_grid]].
  - intros va. rewrite (unique_sorted_In _ va).
    rewrite <- (map_map fst fst), in_map_iff. split.
    + intros (k & <- & Hk). apply groupby_sum_records_keys in Hk.
      destruct Hk as (ra & Hra & Hk). destruct k as [va s]. eauto.
    + intros (ra & s & Hra & Hk). exists (va, s). split; [reflexivity|].
      apply groupby_sum_records_keys. eauto.
  - intros s. rewrite (unique_sorted_In _ s).
    rewrite <- (map_map fst snd), in_map_iff. split.
    + intros (k & <- & Hk). apply groupby_sum_records_keys in Hk.
      destruct Hk as (ra & Hra & Hk). destruct k as [va s]. eauto.
    + intros (ra & va & Hra & Hk). exists (va, s). split; [reflexivity|].
      apply groupby_sum_records_keys. eauto.
Qed.

Lemma build_vintage_pivot_records_axes_witness :
  exists rows pivot,
    with_ages_records sample_missing_state = Some rows /\
    build_vintage_pivot_records sample_missing_state = Some pivot /\
    ascending (index pivot) /\
    NoDup (index pivot) /\
    (forall va, In va (index pivot) <->
       exists ra s, In ra rows /\ record_key ra = Some (va, s)) /\
    ascending (columns pivot) /\
    NoDup (columns pivot) /\
    (forall s, In s (columns pivot) <->
       exists ra va, In ra rows /\ record_key ra = Some (va, s)) /\
    shape (length (index pivot)) (length (columns pivot)) (values pivot).
Proof.
  apply build_vintage_pivot_records_axes. reflexivity.
Defined.

(** ** Shrinkage: states never seen as a source *)

Lemma blend_zero_rows (w : Q) p q :
  Forall (fun x => x == 0) p -> Forall (fun x => x == 0) q ->
  Forall (fun x => x == 0)
    (zip_with Qplus (map (fun x => (1 - w) * x) p) (map (fun x => w * x) q)).
Proof.
  intros Hp. revert q. induction Hp as [|x p Hx _ IH]; intros q Hq; simpl.
  - constructor.
  - destruct Hq as [|y q Hy Hq]; simpl; constructor.
    + rewrite Hx, Hy. ring.
    + now apply IH.
Qed.

Lemma normalize_row_of_zero_sum r :
  row_sum r == 0 -> Forall (fun x => x == 0) (normalize_row r).
Proof.
  intros Hs. rewrite (normalize_row_zero r Hs).
  induction (length r); simpl; constructor; auto. reflexivity.
Qed.

(** X22: with non-negative counts, a state without any observation as a
    source at any age (its pooled row is all zero) gets a row of zeros at
    every age, whatever the pool weight: neither uniform nor copied from
    another state. *)
Theorem shrink_unobserved_state_row_is_zero
    (age_tables : Dict Matrix) (w : Q) (age : Z) (tbl : Matrix) (i : nat) :
  NoDup (map fst age_tables) ->
  (forall kv, In kv age_tables -> nonneg_frame (snd kv)) ->
  In (age, tbl) age_tables ->
  (i < length (all_states_of age_tables))%nat ->
  Forall (fun x => x == 0)
    (nth i (values (pooled_of age_tables (all_states_of age_tables))) []) ->
  exists out_tbl,
    dict_get (shrink_toward_pool age_tables w) age = Some out_tbl /\
    Forall (fun x => x == 0) (nth i (values out_tbl) []).
Proof.
  intros Hnd Hnn Hin Hi Hzero.
  pose proof (pooled_row_sum_ge age_tables age tbl i Hnn Hin Hi) as Hge.
  set (S := all_states_of age_tables) in *.
  pose proof (row_sum_all_zero _ Hzero) as Hp0.
  assert (Hrow0 : 0 <= row_sum (nth i (values (reindex tbl S S 0)) [])).
  { apply row_sum_nonneg, nonneg_row_of_frame, reindex_nonneg.
    apply (Hnn (age, tbl) Hin). }
  assert (Hr0 : row_sum (nth i (values (reindex tbl S S 0)) []) == 0) by lra.
  eexists. split; [apply shrink_toward_pool_get; eassumption|]. fold S.
  rewrite shrink_one_row; [|apply pooled_probs_shape|exact Hi].
  rewrite row_normalize_values.
  pose proof (pooled_shape age_tables S) as Hps.
  rewrite (nth_map_rows _ _ _ [] []) by (destruct Hps; lia).
  apply blend_zero_rows; now apply normalize_row_of_zero_sum.
Qed.

Lemma shrink_unobserved_state_row_is_zero_witness :
  exists out_tbl,
    dict_get (shrink_toward_pool [(0%Z, mkFrame ["A"; "B"]%string ["A"; "B"]%string
                                             [[8; 2]; [0; 0]])] (1 # 2)) 0%Z
    = Some out_tbl /\
    Forall (fun x => x == 0) (nth 1 (values out_tbl) []).
Proof.
  apply (shrink_unobserved_state_row_is_zero _ (1 # 2) 0%Z
           (mkFrame ["A"; "B"]%string ["A"; "B"]%string [[8; 2]; [0; 0]]) 1%nat).
  - simpl. repeat constructor. intros [].
  - intros kv [<- | []]. unfold nonneg_frame; simpl. repeat constructor; discriminate.
  - left. reflexivity.
  - vm_compute. lia.
  - vm_compute. repeat constructor.
Defined.
